(** * Publisher: a weak-pointer based observer list (tjh::Publisher)

    Shallow embedding of [src/src/Publisher.h]: the class
    [tjh::Publisher<Friend, T...>] with its member [_callbacks], the public
    method [subscribe] and the protected dispatch entry point, which the file
    carries in two revisions, [fire] and [publish].

    The reference counting of [std::shared_ptr] / [std::weak_ptr] is modelled
    by a table of control blocks; the callbacks stored behind the handles are
    listener code, modelled as sequences of the operations a listener can
    perform on the handles and on the publisher's public interface.

    Scope of the model: one thread; a callback does not call back into the
    dispatch entry point of the publisher that is invoking it; destroying a
    function object has no effect of its own on other handles (a listener
    that gives up several handles performs one [Release] for each). *)

From stdpp Require Import base list strings.
From Stdlib Require Import Lia ZArith.

Set Default Proof Using "Type".

(** ** Handles and control blocks *)

(** A handle names the control block of one
    [std::shared_ptr<std::function<void(T...)>>]. *)
Definition handle := nat.

(** [std::weak_ptr<std::function<void(T...)>>]: empty, or observing a
    handle. *)
Definition weak_ptr := option handle.

(** The strong references of one control block, split by holder: [owners]
    counts the [shared_ptr]s held by listeners, [locks] the temporary
    [shared_ptr]s ([auto ptr = callback->lock()]) held by the publisher. *)
Record ctrl := Ctrl { owners : nat; locks : nat }.

(** The publisher together with the control blocks of all handles allocated
    so far; a control block is never deallocated (a weak reference keeps it). *)
Record world := World {
  heap : list ctrl;
  _callbacks : list weak_ptr
}.

Definition strong (c : ctrl) : nat := owners c + locks c.

(** [weak_ptr::use_count]. *)
Definition use_count (σ : world) (w : weak_ptr) : nat :=
  match w with
  | None => 0
  | Some h => match heap σ !! h with
              | Some c => strong c
              | None => 0
              end
  end.

(** [weak_ptr::expired]. *)
Definition expired (σ : world) (w : weak_ptr) : bool := use_count σ w =? 0.

(** The handle has a control block. *)
Definition allocated (σ : world) (h : handle) : Prop := h < length (heap σ).

Definition set_ctrl (h : handle) (c : ctrl) (σ : world) : world :=
  World (<[h := c]> (heap σ)) (_callbacks σ).

Section Publisher.

(** The event signature [T...] (the argument tuple) and the type of the
    errors a callback can raise. *)
Variables T exn : Type.

(** ** Observable events *)

Inductive event :=
| Lock (w : weak_ptr) (ok : bool)   (* [callback->lock()] and whether it gave a pointer *)
| Invoked (h : handle) (x : T)      (* [ptr->operator()(args...)] entered *)
| Destroyed (h : handle).           (* last strong reference gone: the function object dies *)

(** ** State, error and log monad *)

Inductive result (A : Type) :=
| Ok (a : A)
| Raise (e : exn).
Arguments Ok {A} a.
Arguments Raise {A} e.

Definition M (A : Type) : Type := world → result A * world * list event.

Definition ret {A} (a : A) : M A := λ σ, (Ok a, σ, []).

Definition bind {A B} (m : M A) (f : A → M B) : M B := λ σ,
  match m σ with
  | (Ok a, σ1, e1) =>
      match f a σ1 with
      | (r, σ2, e2) => (r, σ2, e1 ++ e2)
      end
  | (Raise e, σ1, e1) => (Raise e, σ1, e1)
  end.

Local Notation "'let*' x ':=' m 'in' k" := (bind m (λ x, k))
  (at level 10, x name, m at level 100, k at level 200).
Local Notation "m >> k" := (bind m (λ _, k))
  (at level 65, right associativity).

Definition emit (e : event) : M unit := λ σ, (Ok (), σ, [e]).

(** ** Reference counting *)

(** [weak_ptr::lock]: a new strong reference when the handle is live, an
    empty pointer otherwise. *)
Definition lock (w : weak_ptr) : M (option handle) := λ σ,
  match w with
  | Some h =>
      match heap σ !! h with
      | Some c =>
          if 0 <? strong c
          then (Ok (Some h), set_ctrl h (Ctrl (owners c) (S (locks c))) σ,
                [Lock w true])
          else (Ok None, σ, [Lock w false])
      | None => (Ok None, σ, [Lock w false])
      end
  | None => (Ok None, σ, [Lock w false])
  end.

(** The destructor of the publisher's temporary [ptr]. *)
Definition unlock (h : handle) : M unit := λ σ,
  match heap σ !! h with
  | Some c =>
      let c' := Ctrl (owners c) (pred (locks c)) in
      (Ok (), set_ctrl h c' σ, if strong c' =? 0 then [Destroyed h] else [])
  | None => (Ok (), σ, [])
  end.

(** A listener gives up one of its [shared_ptr]s to [h] (reset, or the
    listener is deleted); nothing happens when it holds none. *)
Definition release (h : handle) : M unit := λ σ,
  match heap σ !! h with
  | Some c =>
      if 0 <? owners c
      then let c' := Ctrl (pred (owners c)) (locks c) in
           (Ok (), set_ctrl h c' σ, if strong c' =? 0 then [Destroyed h] else [])
      else (Ok (), σ, [])
  | None => (Ok (), σ, [])
  end.

(** A listener copies a [shared_ptr] to [h], or locks a [weak_ptr] to it;
    an expired handle cannot be revived. *)
Definition retain (h : handle) : M unit := λ σ,
  match heap σ !! h with
  | Some c =>
      if 0 <? strong c
      then (Ok (), set_ctrl h (Ctrl (S (owners c)) (locks c)) σ, [])
      else (Ok (), σ, [])
  | None => (Ok (), σ, [])
  end.

(** [make_callback]: a fresh handle whose only strong reference is the
    listener's. *)
Definition make_callback : M unit := λ σ,
  (Ok (), World (heap σ ++ [Ctrl 1 0]) (_callbacks σ), []).

(** ** Publisher::subscribe *)

Definition subscribe (callback : weak_ptr) : M unit := λ σ,
  if negb (expired σ callback)
  then (Ok (), World (heap σ) (_callbacks σ ++ [callback]), [])
  else (Ok (), σ, []).

(** ** Listener code *)

(** What a callback (or any listener code) can do to the handles and to the
    publisher: the publisher's dispatch entry point is protected, so
    [subscribe] is the only member it can reach. *)
Inductive action :=
| Release (h : handle)
| Retain (h : handle)
| MakeCallback
| Subscribe (w : weak_ptr)
| Throw (e : exn).

Definition run_action (a : action) : M unit :=
  match a with
  | Release h => release h
  | Retain h => retain h
  | MakeCallback => make_callback
  | Subscribe w => subscribe w
  | Throw e => λ σ, (Raise e, σ, [])
  end.

Fixpoint run_actions (acts : list action) : M unit :=
  match acts with
  | [] => ret ()
  | a :: acts' => run_action a >> run_actions acts'
  end.

(** The function object behind each handle: what it does when called with
    the arguments [x] in the state [σ]. *)
Variable code : handle → T → world → list action.

(** [ptr->operator()(args...)]. *)
Definition call (h : handle) (x : T) : M unit :=
  emit (Invoked h x) >> (λ σ, run_actions (code h x σ) σ).

(** The scope of [auto ptr]: the temporary is destroyed when the block is
    left, by falling through or by an exception unwinding through it. *)
Definition scoped (h : handle) (m : M unit) : M unit := λ σ,
  match m σ with
  | (r, σ1, e1) =>
      match unlock h σ1 with
      | (_, σ2, e2) => (r, σ2, e1 ++ e2)
      end
  end.

(** ** Publisher::fire and Publisher::publish *)

(** The purge loop: the list is [before ++ rest] and the iterator [callback]
    stands at the head of [rest]; [erase] drops that head, [++callback]
    moves it to [before].  The second component logs the entries on which
    [expired()] was called. *)
Fixpoint purge_loop (σ : world) (before rest : list weak_ptr)
  : list weak_ptr * list weak_ptr :=
  match rest with
  | [] => (before, [])
  | callback :: rest' =>
      let '(l, tested) :=
        if expired σ callback
        then purge_loop σ before rest'
        else purge_loop σ (before ++ [callback]) rest' in
      (l, callback :: tested)
  end.

Definition purge : M unit := λ σ,
  (Ok (), World (heap σ) (purge_loop σ [] (_callbacks σ)).1, []).

(** The body of the [for] loop over the copy. *)
Definition dispatch_body (x : T) (callback : weak_ptr) : M unit :=
  let* ptr := lock callback in
  match ptr with
  | Some h => scoped h (call h x)
  | None => ret ()
  end.

Fixpoint dispatch (x : T) (callbacks : list weak_ptr) : M unit :=
  match callbacks with
  | [] => ret ()
  | callback :: rest => dispatch_body x callback >> dispatch x rest
  end.

Definition fire (args : T) : M unit :=
  purge >>
  (λ σ, let callbacks := _callbacks σ in dispatch args callbacks σ).

Definition publish (args : T) : M unit :=
  purge >>
  (λ σ, let callbacks := _callbacks σ in dispatch args callbacks σ).

(** The live entries of the list, in list order. *)
Definition live (σ : world) (w : weak_ptr) : Prop := expired σ w = false.

#[global] Instance live_dec σ w : Decision (live σ w) :=
  decide_rel (=) (expired σ w) false.

Definition live_entries (σ : world) : list weak_ptr :=
  filter (live σ) (_callbacks σ).

(** ** Projections of an event log *)

Definition invocations (evs : list event) : list (handle * T) :=
  omap (λ ev, match ev with Invoked h x => Some (h, x) | _ => None end) evs.

Definition lock_log (evs : list event) : list weak_ptr :=
  omap (λ ev, match ev with Lock w _ => Some w | _ => None end) evs.

Definition invoked_count (h : handle) (evs : list event) : nat :=
  length (filter (λ p, p.1 = h) (invocations evs)).

(** ** What happens between and around publications *)

Inductive op :=
| Act (a : action)     (* some listener code runs outside any publication *)
| Publish (x : T).     (* the owner publishes; it absorbs what the callbacks raise *)

Definition run_op (o : op) (σ : world) : world * list event :=
  match o with
  | Act a => let '(_, σ', evs) := run_action a σ in (σ', evs)
  | Publish x => let '(_, σ', evs) := publish x σ in (σ', evs)
  end.

Fixpoint session (ops : list op) (σ : world) : world * list event :=
  match ops with
  | [] => (σ, [])
  | o :: ops' =>
      let '(σ1, e1) := run_op o σ in
      let '(σ2, e2) := session ops' σ1 in
      (σ2, e1 ++ e2)
  end.

End Publisher.

Arguments Lock {T} w ok.
Arguments Invoked {T} h x.
Arguments Destroyed {T} h.
Arguments Ok {exn A} a.
Arguments Raise {exn A} e.
Arguments ret {T exn A} a.
Arguments bind {T exn A B} m f.
Arguments emit {T exn} e.
Arguments lock {T exn} w.
Arguments unlock {T exn} h.
Arguments release {T exn} h.
Arguments retain {T exn} h.
Arguments make_callback {T exn}.
Arguments subscribe {T exn} callback.
Arguments Release {exn} h.
Arguments Retain {exn} h.
Arguments MakeCallback {exn}.
Arguments Subscribe {exn} w.
Arguments Throw {exn} e.
Arguments run_action {T exn} a.
Arguments run_actions {T exn} acts.
Arguments call {T exn} code h x.
Arguments scoped {T exn} h m.
Arguments purge {T exn}.
Arguments dispatch_body {T exn} code x callback.
Arguments dispatch {T exn} code x callbacks.
Arguments fire {T exn} code args.
Arguments publish {T exn} code args.
Arguments invocations {T} evs.
Arguments lock_log {T} evs.
Arguments invoked_count {T} h evs.
Arguments Act {T exn} a.
Arguments Publish {T exn} x.
Arguments run_op {T exn} code o σ.
Arguments session {T exn} code ops σ.

Notation "'let*' x ':=' m 'in' k" := (bind m (λ x, k))
  (at level 10, x name, m at level 100, k at level 200).
Notation "m >> k" := (bind m (λ _, k))
  (at level 65, right associativity).

(** An expired handle that has a control block: no strong reference is left
    and none can be made. *)
Definition dead (σ : world) (h : handle) : Prop :=
  allocated σ h ∧ expired σ (Some h) = true.

(** How the handles can change while listener or publisher code runs from
    [σ] to [σ'] logging [evs]. *)
Record ages {T : Type} (σ σ' : world) (evs : list (event T)) : Prop := Ages {
  ages_alloc : length (heap σ) ≤ length (heap σ');
  ages_dead : ∀ h, dead σ h → dead σ' h;
  ages_destroyed : ∀ h, Destroyed h ∈ evs → dead σ' h;
  ages_died : ∀ h, allocated σ h → live σ (Some h) → ¬ live σ' (Some h) →
              Destroyed h ∈ evs
}.

(** Every run of [m] respects [ages]. *)
Definition aging {T exn A} (m : M T exn A) : Prop :=
  ∀ σ r σ' evs, m σ = (r, σ', evs) → ages σ σ' evs.

(** Every run of [m] only appends to [_callbacks]. *)
Definition appending {T exn A} (m : M T exn A) : Prop :=
  ∀ σ r σ' evs, m σ = (r, σ', evs) → _callbacks σ `prefix_of` _callbacks σ'.

(** Every run of [m] logs destructions only. *)
Definition silent {T exn A} (m : M T exn A) : Prop :=
  ∀ σ r σ' evs, m σ = (r, σ', evs) →
  ∀ ev, ev ∈ evs → ∃ h, ev = Destroyed h.

(** The publisher after the purge loop of [fire] / [publish]. *)
Definition purged (σ : world) : world := World (heap σ) (live_entries σ).

(** The callbacks of the handles [S] return normally on [x] and release,
    among the handles of [S], at most their own. *)
Definition considerate {T exn}
    (code : handle → T → world → list (action exn))
    (x : T) (S : list handle) : Prop :=
  ∀ h σ, h ∈ S →
    (∀ e, Throw e ∉ code h x σ) ∧
    (∀ h', Release h' ∈ code h x σ → h' ∈ S → h' = h).

(** [i] never occurs after an occurrence of [d]. *)
Definition never_after {A} (d i : A) (l : list A) : Prop :=
  ∀ l1 l2, l = l1 ++ d :: l2 → i ∉ l2.

(** ** The demonstration of [src/test/Example.h] *)

Module Example.

(** [IPublisher<int, const std::string&>]. *)
Definition args : Type := Z * string.
Definition error : Type := string.

Definition x5 : args := (5%Z, "x"%string).
Definition y6 : args := (6%Z, "y"%string).

(** [Client::handler]: print the arguments, then [delete this], which
    destroys the client's [_callback], its only strong reference. *)
Definition client : handle → args → world → list (action error) :=
  λ h _ _, [Release h].

(** A callback that does nothing to the handles. *)
Definition quiet : handle → args → world → list (action error) :=
  λ _ _ _, [].

(** The callback of handle 0 raises, the others do nothing. *)
Definition faulty : handle → args → world → list (action error) :=
  λ h _ _, match h with
           | 0 => [Throw "bad"%string]
           | _ => []
           end.

(** The callback of handle 0 constructs a new [Client] on the publisher
    ([make_callback], then [subscribe]); the others do nothing. *)
Definition recruiter : handle → args → world → list (action error) :=
  λ h _ σ, match h with
           | 0 => [MakeCallback; Subscribe (Some (length (heap σ)))]
           | _ => []
           end.

(** Three listeners A, B, C, subscribed in this order. *)
Definition abc : world :=
  World [Ctrl 1 0; Ctrl 1 0; Ctrl 1 0] [Some 0; Some 1; Some 2].

(** Two listeners. *)
Definition two : world := World [Ctrl 1 0; Ctrl 1 0] [Some 0; Some 1].

(** One listener that has not subscribed yet. *)
Definition one : world := World [Ctrl 1 0] [].

(** A handle whose listener is gone, on a publisher without subscribers. *)
Definition gone : world := World [Ctrl 0 0] [].

(** A, B and C before they subscribe. *)
Definition unsubscribed : world := World [Ctrl 1 0; Ctrl 1 0; Ctrl 1 0] [].

(** A, B and C after a publication to three [client]s, and its log. *)
Definition abc_done : world :=
  World [Ctrl 0 0; Ctrl 0 0; Ctrl 0 0] [Some 0; Some 1; Some 2].

Definition abc_log : list (event args) :=
  [Lock (Some 0) true; Invoked 0 x5; Destroyed 0;
   Lock (Some 1) true; Invoked 1 x5; Destroyed 1;
   Lock (Some 2) true; Invoked 2 x5; Destroyed 2].

(** [abc] while the callback of A runs, before and after its [delete this]. *)
Definition abc_locked : world :=
  World [Ctrl 1 1; Ctrl 1 0; Ctrl 1 0] [Some 0; Some 1; Some 2].

Definition abc_released : world :=
  World [Ctrl 0 1; Ctrl 1 0; Ctrl 1 0] [Some 0; Some 1; Some 2].

(** [two] while the callback of handle 0 runs, and after its
    [make_callback]. *)
Definition two_locked : world := World [Ctrl 1 1; Ctrl 1 0] [Some 0; Some 1].

Definition two_made : world :=
  World [Ctrl 1 1; Ctrl 1 0; Ctrl 1 0] [Some 0; Some 1].

(** [two] after one publication to the [recruiter], with the log, and the
    log of the next publication. *)
Definition three : world :=
  World [Ctrl 1 0; Ctrl 1 0; Ctrl 1 0] [Some 0; Some 1; Some 2].

Definition two_log : list (event args) :=
  [Lock (Some 0) true; Invoked 0 x5; Lock (Some 1) true; Invoked 1 x5].

Definition four : world :=
  World [Ctrl 1 0; Ctrl 1 0; Ctrl 1 0; Ctrl 1 0]
        [Some 0; Some 1; Some 2; Some 3].

Definition three_log : list (event args) :=
  [Lock (Some 0) true; Invoked 0 y6; Lock (Some 1) true; Invoked 1 y6;
   Lock (Some 2) true; Invoked 2 y6].

(** One listener subscribed twice, and the log of a publication. *)
Definition twice : world := World [Ctrl 1 0] [Some 0; Some 0].

Definition twice_log : list (event args) :=
  [Lock (Some 0) true; Invoked 0 x5; Lock (Some 0) true; Invoked 0 x5].

(** The log of a publication to [two] with the [faulty] callback. *)
Definition faulty_log : list (event args) :=
  [Lock (Some 0) true; Invoked 0 x5].

End Example.


(** Every entry of [_callbacks] observes a handle that has a control
    block: the list holds no empty observation and none of a handle that
    was never made. *)
Definition registered (σ : world) : Prop :=
  ∀ w, w ∈ _callbacks σ → ∃ h, w = Some h ∧ allocated σ h.

(** ** Index sequences (the C++11 stand-in for [std::integer_sequence]) *)

Module std_impl.

(** [_Index_tuple<_Indexes...>], as the list of its indices. *)
Definition _Index_tuple : Type := list nat.

(** [_Index_tuple<_Indexes...>::__next]:
    [_Index_tuple<_Indexes..., sizeof...(_Indexes)>]. *)
Definition __next (_Indexes : _Index_tuple) : _Index_tuple :=
  _Indexes ++ [length _Indexes].

(** [_Build_index_tuple<_Num>::__type]. *)
Fixpoint _Build_index_tuple (_Num : nat) : _Index_tuple :=
  match _Num with
  | 0 => []
  | S _Num' => __next (_Build_index_tuple _Num')
  end.

(** [static_cast<int>] of an index, for a 32-bit [int]. *)
Definition to_int (i : Z) : Z :=
  let m := (i mod 2 ^ 32)%Z in
  if (m <? 2 ^ 31)%Z then m else (m - 2 ^ 32)%Z.

(** [integer_sequence<int, _Idx...>], as the list of its elements, and its
    member [size()]. *)
Definition integer_sequence : Type := list Z.

Definition size (s : integer_sequence) : nat := length s.

(** [make_integer_sequence<int, _Num>]; [None] when the [static_assert]
    on a negative length rejects the program. *)
Definition make_integer_sequence (_Num : Z) : option integer_sequence :=
  if (0 <=? _Num)%Z
  then Some ((λ _Idx, to_int (Z.of_nat _Idx)) <$>
             _Build_index_tuple (Z.to_nat _Num))
  else None.

End std_impl.

(** ** [detail::placeholder] and [detail::bind_impl] *)

Module detail.

Section Bind.

(** The values handed to the bound function (the receiver and the
    arguments), and its result. *)
Variables V R : Type.

(** An argument stored in a bind expression: a value, or
    [placeholder<N>{}]. *)
Inductive bound_arg :=
| Stored (v : V)
| placeholder (N : Z).

(** [std::is_placeholder]: [N] for [placeholder<N>] (the specialization in
    namespace [std]), 0 for everything else. *)
Definition is_placeholder (b : bound_arg) : Z :=
  match b with
  | placeholder N => N
  | Stored _ => 0
  end.

(** [std::bind(f, bound...)] called with [actual...], as the standard
    library defines it: a bound argument whose [is_placeholder] value is
    [k > 0] stands for the [k]-th actual argument, a stored value for
    itself; [None] when the call is ill-formed (no such actual argument,
    or a placeholder object that is no placeholder). *)
Definition std_bind (f : list V → R) (bound : list bound_arg)
    (actual : list V) : option R :=
  f <$> mapM (λ b,
               let k := is_placeholder b in
               if (0 <? k)%Z then actual !! Z.to_nat (k - 1)
               else match b with
                    | Stored v => Some v
                    | placeholder _ => None
                    end) bound.

(** [bind_impl(mem_func, obj, std::integer_sequence<int, Indices...>)]:
    [std::bind(mem_func, obj, placeholder<Indices+1>{}...)]; the overload
    for a [std::shared_ptr<Instance>] receiver has the same body.  A
    member function is a function of the receiver followed by the
    arguments. *)
Definition bind_impl_indices (mem_func : list V → R) (obj : V)
    (Indices : std_impl.integer_sequence) : list V → option R :=
  std_bind mem_func
    (Stored obj :: ((λ i, placeholder (i + 1)) <$> Indices)).

(** [bind_impl(func, std::integer_sequence<int, Indices...>)], the free
    function overload. *)
Definition bind_impl_free_indices (func : list V → R)
    (Indices : std_impl.integer_sequence) : list V → option R :=
  std_bind func ((λ i, placeholder (i + 1)) <$> Indices).

(** [bind_impl(mem_func, obj)] for a member function of [Args] parameters:
    the indices are [make_integer_sequence<int, sizeof...(Args)>];
    [None] when the program is rejected. *)
Definition bind_impl (Args : nat) (mem_func : list V → R) (obj : V)
    : option (list V → option R) :=
  if (Z.of_nat Args <? 2 ^ 31)%Z
  then bind_impl_indices mem_func obj <$>
       std_impl.make_integer_sequence (Z.of_nat Args)
  else None.

(** [bind_impl(func)], the free function overload. *)
Definition bind_impl_free (Args : nat) (func : list V → R)
    : option (list V → option R) :=
  if (Z.of_nat Args <? 2 ^ 31)%Z
  then bind_impl_free_indices func <$>
       std_impl.make_integer_sequence (Z.of_nat Args)
  else None.

End Bind.

Arguments Stored {V} v.
Arguments placeholder {V} N.
Arguments is_placeholder {V} b.
Arguments std_bind {V R} f bound actual.
Arguments bind_impl_indices {V R} mem_func obj Indices.
Arguments bind_impl_free_indices {V R} func Indices.
Arguments bind_impl {V R} Args mem_func obj.
Arguments bind_impl_free {V R} Args func.

End detail.

(** ** The classes of [src/test/Example.h] *)

Module ExampleClasses.

(** [Client::Client(publisher)]: [_callback = make_callback(&Client::handler,
    this)], then [publisher.subscribe(_callback)]; the new handle is the
    next free one. *)
Definition Client
    (publisher : weak_ptr → M Example.args Example.error unit)
    : M Example.args Example.error unit :=
  λ σ, (make_callback >> publisher (Some (length (heap σ)))) σ.

(** [Primary::subscribe]: a pass through to the composed publisher. *)
Definition Primary_subscribe (callback : weak_ptr)
    : M Example.args Example.error unit :=
  subscribe callback.

(** [Primary::doSomething]: publish [a] and [b]; every listener is a
    [Client]. *)
Definition doSomething (a : Z) (b : string)
    : M Example.args Example.error unit :=
  publish Example.client (a, b).

(** [n] clients constructed one after the other on the [Primary]. *)
Fixpoint clients (n : nat) : M Example.args Example.error unit :=
  match n with
  | 0 => ret ()
  | S n' => Client Primary_subscribe >> clients n'
  end.

(** A [Primary] just constructed: no handle, no subscriber. *)
Definition Primary : world := World [] [].

(** A [Primary] with [n] clients, each holding its callback, and the same
    after every client has deleted itself. *)
Definition crowd (n : nat) : world :=
  World (replicate n (Ctrl 1 0)) (Some <$> seq 0 n).

Definition departed (n : nat) : world :=
  World (replicate n (Ctrl 0 0)) (Some <$> seq 0 n).

End ExampleClasses.

(** * Properties *)

(** ** Splitting a concatenation at one of its elements *)

Lemma app_eq_app_cons {A} (l k l1 l2 : list A) a :
  l ++ k = l1 ++ a :: l2 →
  (∃ m, l = l1 ++ a :: m ∧ l2 = m ++ k) ∨ (∃ m, l1 = l ++ m ∧ k = m ++ a :: l2).
Proof.
  revert l1. induction l as [|b l IH]; intros l1; simpl.
  - intros ->. right. by exists l1.
  - destruct l1 as [|b' l1]; simpl; intros [= -> H].
    + left. by exists l.
    + destruct (IH _ H) as [(m & -> & ->)|(m & -> & ->)];
        [left|right]; by exists m.
Qed.

Lemma never_after_app {A} (d i : A) (l k : list A) :
  never_after d i l → never_after d i k → (d ∈ l → i ∉ k) →
  never_after d i (l ++ k).
Proof.
  intros Hl Hk Hlk l1 l2 [(m & -> & ->)|(m & -> & ->)]%app_eq_app_cons.
  - apply not_elem_of_app. split; [by eapply Hl|].
    apply Hlk. apply elem_of_app. right. by left.
  - by eapply Hk.
Qed.

Section Properties.

Context {T exn : Type}.
Implicit Types (σ : world) (h : handle) (w : weak_ptr) (c : ctrl).
Implicit Types (evs : list (event T)) (acts : list (action exn)).

(** ** The monad *)

Lemma bind_inv {A B} (m : M T exn A) (f : A → M T exn B) σ r σ' evs :
  bind m f σ = (r, σ', evs) →
  (∃ a σ1 e1 e2, m σ = (Ok a, σ1, e1) ∧ f a σ1 = (r, σ', e2) ∧ evs = e1 ++ e2)
  ∨ (∃ e, m σ = (Raise e, σ', evs) ∧ r = Raise e).
Proof.
  unfold bind. destruct (m σ) as [[[a|e] σ1] e1].
  - destruct (f a σ1) as [[r2 σ2] e2] eqn:Hf. intros [= <- <- <-].
    left. by exists a, σ1, e1, e2.
  - intros [= <- <- <-]. right. by exists e.
Qed.

Lemma bind_ok {A B} (m : M T exn A) (f : A → M T exn B) σ a σ1 e1 :
  m σ = (Ok a, σ1, e1) →
  bind m f σ = (let '(r, σ2, e2) := f a σ1 in (r, σ2, e1 ++ e2)).
Proof. unfold bind. by intros ->. Qed.

Lemma bind_raise {A B} (m : M T exn A) (f : A → M T exn B) σ e σ1 e1 :
  m σ = (Raise e, σ1, e1) → bind m f σ = (Raise e, σ1, e1).
Proof. unfold bind. by intros ->. Qed.

(** ** Reference counts *)

Lemma expired_use_count σ w : expired σ w = true ↔ use_count σ w = 0.
Proof. unfold expired. apply Nat.eqb_eq. Qed.

Lemma live_use_count σ w : live σ w ↔ 0 < use_count σ w.
Proof.
  unfold live, expired. rewrite Nat.eqb_neq. lia.
Qed.

Lemma live_allocated σ h : live σ (Some h) → allocated σ h.
Proof.
  rewrite live_use_count. unfold allocated; simpl.
  destruct (heap σ !! h) eqn:E; [|lia].
  intros _. by eapply lookup_lt_Some.
Qed.

Lemma live_is_Some σ w : live σ w → ∃ h, w = Some h.
Proof.
  destruct w as [h|]; [by exists h|]. rewrite live_use_count; simpl; lia.
Qed.

Lemma not_live_dead σ h : allocated σ h → ¬ live σ (Some h) → dead σ h.
Proof.
  intros Ha Hl. split; [done|]. unfold live in Hl.
  by destruct (expired σ (Some h)).
Qed.

Lemma dead_not_live σ h : dead σ h → ¬ live σ (Some h).
Proof. intros [_ He] Hl. unfold live in Hl. congruence. Qed.

Lemma use_count_set_ctrl σ h c h' :
  allocated σ h →
  use_count (set_ctrl h c σ) (Some h') =
  if decide (h = h') then strong c else use_count σ (Some h').
Proof.
  intros Ha. simpl. destruct (decide (h = h')) as [<-|Hne].
  - by rewrite list_lookup_insert_eq.
  - by rewrite list_lookup_insert_ne.
Qed.

Lemma allocated_set_ctrl σ h c h' :
  allocated (set_ctrl h c σ) h' ↔ allocated σ h'.
Proof. unfold allocated; simpl. by rewrite length_insert. Qed.

(** Replacing the control block of [h] by [c']: the handles age when the
    strong count only reaches zero with a logged destruction and never
    leaves zero. *)
Lemma ages_set_ctrl σ h c c' evs :
  heap σ !! h = Some c →
  (strong c = 0 → strong c' = 0) →
  (∀ h', Destroyed h' ∈ evs → h' = h ∧ strong c' = 0) →
  (0 < strong c → strong c' = 0 → Destroyed h ∈ evs) →
  ages σ (set_ctrl h c' σ) evs.
Proof.
  intros Hc Hz Hev Hd.
  assert (allocated σ h) as Ha by (unfold allocated; by eapply lookup_lt_Some).
  split.
  - simpl. by rewrite length_insert.
  - intros h' [Ha' He]. split; [by apply allocated_set_ctrl|].
    apply expired_use_count in He. apply expired_use_count.
    rewrite use_count_set_ctrl by done.
    destruct (decide (h = h')) as [<-|]; [|done].
    simpl in He. rewrite Hc in He. auto.
  - intros h' Hin. destruct (Hev _ Hin) as [-> Hs].
    split; [by apply allocated_set_ctrl|].
    apply expired_use_count. rewrite use_count_set_ctrl by done.
    by rewrite decide_True.
  - intros h' Ha' Hl Hnl. rewrite !live_use_count in *.
    rewrite use_count_set_ctrl in Hnl by done.
    destruct (decide (h = h')) as [<-|]; [|done].
    simpl in Hl. rewrite Hc in Hl. apply Hd; lia.
Qed.

Lemma ages_refl σ : ages σ σ (@nil (event T)).
Proof.
  split; [lia|done| |done]. intros h Hin. by apply elem_of_nil in Hin.
Qed.

Lemma ages_trans σ σ1 σ2 evs1 evs2 :
  ages σ σ1 evs1 → ages σ1 σ2 evs2 → ages σ σ2 (evs1 ++ evs2).
Proof.
  intros [A1 D1 X1 Y1] [A2 D2 X2 Y2]. split.
  - lia.
  - auto.
  - intros h [Hin|Hin]%elem_of_app; auto.
  - intros h Ha Hl Hnl. apply elem_of_app.
    destruct (decide (live σ1 (Some h))) as [Hl1|Hl1].
    + right. apply Y2; [unfold allocated in *; lia|done|done].
    + left. by apply Y1.
Qed.

Lemma ages_same_counts σ σ' evs :
  length (heap σ) ≤ length (heap σ') →
  (∀ h, allocated σ h → use_count σ' (Some h) = use_count σ (Some h)) →
  (∀ h, Destroyed h ∉ evs) →
  ages σ σ' evs.
Proof.
  intros Hlen Hcnt Hev. split.
  - done.
  - intros h [Ha He]. split; [unfold allocated in *; lia|].
    apply expired_use_count. rewrite Hcnt by done. by apply expired_use_count.
  - intros h Hin. by apply Hev in Hin.
  - intros h Ha Hl Hnl. rewrite !live_use_count, Hcnt in * by done. done.
Qed.

(** ** The primitive operations age the handles *)

Lemma aging_ret {A} (a : A) : aging (ret (T:=T) (exn:=exn) a).
Proof. intros σ r σ' evs [= <- <- <-]. apply ages_refl. Qed.

Lemma aging_bind {A B} (m : M T exn A) (f : A → M T exn B) :
  aging m → (∀ a, aging (f a)) → aging (bind m f).
Proof.
  intros Hm Hf σ r σ' evs
    [(a & σ1 & evs1 & evs2 & H1 & H2 & ->)|(e & H1 & ->)]%bind_inv.
  - eapply ages_trans; [by eapply Hm|by eapply Hf].
  - by eapply Hm.
Qed.

Lemma aging_emit (ev : event T) :
  (∀ h, ev ≠ Destroyed h) → aging (emit (exn:=exn) ev).
Proof.
  intros Hev σ r σ' evs [= <- <- <-]. apply ages_same_counts; [done..|].
  intros h Hin%list_elem_of_singleton. by eapply Hev.
Qed.

Lemma aging_lock w : aging (lock (T:=T) (exn:=exn) w).
Proof.
  intros σ r σ' evs. unfold lock.
  assert (∀ b h, Destroyed h ∉ [Lock (T:=T) w b]) as Hno
    by (by intros b h ?%list_elem_of_singleton).
  destruct w as [h|]; [|intros [= <- <- <-]; by apply ages_same_counts].
  destruct (heap σ !! h) as [c|] eqn:Hc;
    [|intros [= <- <- <-]; by apply ages_same_counts].
  destruct (0 <? strong c) eqn:Hs;
    [|intros [= <- <- <-]; by apply ages_same_counts].
  apply Nat.ltb_lt in Hs. intros [= <- <- <-].
  eapply ages_set_ctrl; [done|unfold strong in *; simpl; lia| |].
  - intros h' Hin. by apply Hno in Hin.
  - unfold strong; simpl; lia.
Qed.

Lemma aging_unlock h : aging (unlock (T:=T) (exn:=exn) h).
Proof.
  intros σ r σ' evs. unfold unlock.
  destruct (heap σ !! h) as [c|] eqn:Hc;
    [|intros [= <- <- <-]; apply ages_refl].
  intros [= <- <- <-].
  eapply ages_set_ctrl; [done|unfold strong; simpl; lia| |].
  - intros h'. destruct (_ =? 0) eqn:Hz.
    + intros [= ->]%list_elem_of_singleton. by apply Nat.eqb_eq in Hz.
    + by intros ?%elem_of_nil.
  - intros _ ->. simpl. by apply list_elem_of_singleton.
Qed.

Lemma aging_release h : aging (release (T:=T) (exn:=exn) h).
Proof.
  intros σ r σ' evs. unfold release.
  destruct (heap σ !! h) as [c|] eqn:Hc;
    [|intros [= <- <- <-]; apply ages_refl].
  destruct (0 <? owners c) eqn:Ho; [|intros [= <- <- <-]; apply ages_refl].
  apply Nat.ltb_lt in Ho. intros [= <- <- <-].
  eapply ages_set_ctrl; [done|unfold strong; simpl; lia| |].
  - intros h'. destruct (_ =? 0) eqn:Hz.
    + intros [= ->]%list_elem_of_singleton. by apply Nat.eqb_eq in Hz.
    + by intros ?%elem_of_nil.
  - intros _ ->. simpl. by apply list_elem_of_singleton.
Qed.

Lemma aging_retain h : aging (retain (T:=T) (exn:=exn) h).
Proof.
  intros σ r σ' evs. unfold retain.
  destruct (heap σ !! h) as [c|] eqn:Hc;
    [|intros [= <- <- <-]; apply ages_refl].
  destruct (0 <? strong c) eqn:Hs; [|intros [= <- <- <-]; apply ages_refl].
  apply Nat.ltb_lt in Hs. intros [= <- <- <-].
  eapply ages_set_ctrl; [done|unfold strong in *; simpl; lia| |].
  - by intros h' ?%elem_of_nil.
  - unfold strong; simpl; lia.
Qed.

Lemma aging_make_callback : aging (make_callback (T:=T) (exn:=exn)).
Proof.
  intros σ r σ' evs [= <- <- <-]. apply ages_same_counts.
  - simpl. rewrite length_app. lia.
  - intros h Ha. simpl. by rewrite lookup_app_l.
  - by intros h ?%elem_of_nil.
Qed.

Lemma aging_subscribe w : aging (subscribe (T:=T) (exn:=exn) w).
Proof.
  intros σ r σ' evs. unfold subscribe.
  destruct (negb _); intros [= <- <- <-]; [|apply ages_refl].
  apply ages_same_counts; [done..|]. by intros h ?%elem_of_nil.
Qed.

Lemma aging_run_action (a : action exn) : aging (run_action (T:=T) a).
Proof.
  destruct a; simpl.
  - apply aging_release.
  - apply aging_retain.
  - apply aging_make_callback.
  - apply aging_subscribe.
  - intros σ r σ' evs [= <- <- <-]. apply ages_refl.
Qed.

Lemma aging_run_actions acts : aging (run_actions (T:=T) acts).
Proof.
  induction acts as [|a acts IH]; simpl.
  - apply aging_ret.
  - apply aging_bind; [apply aging_run_action|done].
Qed.

(** ** Listener code logs destructions only and only appends *)

Lemma silent_run_action (a : action exn) : silent (run_action (T:=T) a).
Proof.
  intros σ r σ' evs Hrun ev Hin. destruct a as [h|h| |w|e]; simpl in Hrun.
  - unfold release in Hrun. destruct (heap σ !! h) as [c|];
      [destruct (0 <? owners c); [destruct (_ =? 0)|]|];
      injection Hrun as <- <- <-;
      first [by apply elem_of_nil in Hin
            |apply list_elem_of_singleton in Hin; by exists h].
  - unfold retain in Hrun. destruct (heap σ !! h) as [c|];
      [destruct (0 <? strong c)|];
      injection Hrun as <- <- <-; by apply elem_of_nil in Hin.
  - injection Hrun as <- <- <-. by apply elem_of_nil in Hin.
  - unfold subscribe in Hrun. destruct (negb _);
      injection Hrun as <- <- <-; by apply elem_of_nil in Hin.
  - injection Hrun as <- <- <-. by apply elem_of_nil in Hin.
Qed.

Lemma silent_run_actions acts : silent (run_actions (T:=T) acts).
Proof.
  induction acts as [|a acts IH]; intros σ r σ' evs Hrun ev Hin; simpl in Hrun.
  - injection Hrun as <- <- <-. by apply elem_of_nil in Hin.
  - apply bind_inv in Hrun
      as [(u & σ1 & evs1 & evs2 & H1 & H2 & ->)|(e & H1 & ->)].
    + apply elem_of_app in Hin as [Hin|Hin].
      * by eapply silent_run_action.
      * by eapply IH.
    + by eapply silent_run_action.
Qed.

Lemma silent_unlock h : silent (unlock (T:=T) (exn:=exn) h).
Proof.
  intros σ r σ' evs Hrun ev Hin. unfold unlock in Hrun.
  destruct (heap σ !! h) as [c|]; [destruct (_ =? 0)|];
    injection Hrun as <- <- <-;
    first [by apply elem_of_nil in Hin
          |apply list_elem_of_singleton in Hin; by exists h].
Qed.

Lemma appending_ret {A} (a : A) : appending (ret (T:=T) (exn:=exn) a).
Proof. by intros σ r σ' evs [= <- <- <-]. Qed.

Lemma appending_bind {A B} (m : M T exn A) (f : A → M T exn B) :
  appending m → (∀ a, appending (f a)) → appending (bind m f).
Proof.
  intros Hm Hf σ r σ' evs
    [(a & σ1 & evs1 & evs2 & H1 & H2 & ->)|(e & H1 & ->)]%bind_inv.
  - etrans; [by eapply Hm|by eapply Hf].
  - by eapply Hm.
Qed.

Lemma appending_lock w : appending (lock (T:=T) (exn:=exn) w).
Proof.
  intros σ r σ' evs. unfold lock.
  destruct w as [h|]; [|by intros [= <- <- <-]].
  destruct (heap σ !! h) as [c|]; [|by intros [= <- <- <-]].
  by destruct (0 <? strong c); intros [= <- <- <-].
Qed.

Lemma appending_unlock h : appending (unlock (T:=T) (exn:=exn) h).
Proof.
  intros σ r σ' evs. unfold unlock.
  by destruct (heap σ !! h) as [c|]; intros [= <- <- <-].
Qed.

Lemma appending_run_action (a : action exn) :
  appending (run_action (T:=T) a).
Proof.
  intros σ r σ' evs Hrun. destruct a as [h|h| |w|e]; simpl in Hrun.
  - unfold release in Hrun. by destruct (heap σ !! h) as [c|];
      [destruct (0 <? owners c)|]; injection Hrun as <- <- <-.
  - unfold retain in Hrun. by destruct (heap σ !! h) as [c|];
      [destruct (0 <? strong c)|]; injection Hrun as <- <- <-.
  - by injection Hrun as <- <- <-.
  - unfold subscribe in Hrun. destruct (negb _);
      injection Hrun as <- <- <-; [|done]. by apply prefix_app_r.
  - by injection Hrun as <- <- <-.
Qed.

Lemma appending_run_actions acts : appending (run_actions (T:=T) acts).
Proof.
  induction acts as [|a acts IH]; simpl.
  - apply appending_ret.
  - apply appending_bind; [apply appending_run_action|done].
Qed.

(** ** One iteration of the dispatch loop *)

Context (code : handle → T → world → list (action exn)).

Lemma lock_live σ h :
  live σ (Some h) →
  ∃ c, heap σ !! h = Some c ∧ 0 < strong c ∧
    lock (T:=T) (exn:=exn) (Some h) σ =
      (Ok (Some h), set_ctrl h (Ctrl (owners c) (S (locks c))) σ,
       [Lock (Some h) true]).
Proof.
  rewrite live_use_count. unfold lock; simpl.
  destruct (heap σ !! h) as [c|]; [|lia].
  intros Hs. exists c. split_and!; [done..|].
  by apply Nat.ltb_lt in Hs as ->.
Qed.

Lemma lock_not_live σ w :
  ¬ live σ w → lock (T:=T) (exn:=exn) w σ = (Ok None, σ, [Lock w false]).
Proof.
  rewrite live_use_count. unfold lock. destruct w as [h|]; [|done]. simpl.
  destruct (heap σ !! h) as [c|]; [|done].
  intros Hs. by apply Nat.ltb_nlt in Hs as ->.
Qed.

Lemma unlock_returns h σ (r : result exn ()) σ' evs :
  unlock h σ = (r, σ', evs) → r = Ok ().
Proof.
  unfold unlock. by destruct (heap σ !! h); intros [= <- <- <-].
Qed.

(** The two ways through the loop body: either the entry is expired at this
    instant and is passed over, or its callback runs between taking and
    dropping the temporary strong reference. *)
Lemma dispatch_body_inv x w σ r σ' evs :
  dispatch_body code x w σ = (r, σ', evs) →
  (¬ live σ w ∧ r = Ok () ∧ σ' = σ ∧ evs = [Lock w false])
  ∨ (∃ h c σ1 evs1 evs2,
       w = Some h ∧ heap σ !! h = Some c ∧ 0 < strong c ∧
       let σL := set_ctrl h (Ctrl (owners c) (S (locks c))) σ in
       run_actions (code h x σL) σL = (r, σ1, evs1) ∧
       unlock (exn:=exn) h σ1 = (Ok (), σ', evs2) ∧
       evs = Lock w true :: Invoked h x :: evs1 ++ evs2).
Proof.
  unfold dispatch_body. intros Hrun.
  destruct (decide (live σ w)) as [Hl|Hl].
  - right. destruct (live_is_Some _ _ Hl) as [h ->].
    destruct (lock_live _ _ Hl) as (c & Hc & Hs & Hlock).
    rewrite (bind_ok _ _ _ _ _ _ Hlock) in Hrun.
    exists h, c. unfold scoped, call in Hrun.
    set (σL := set_ctrl _ _ _) in *.
    rewrite (bind_ok _ _ σL () σL [Invoked h x]) in Hrun by done.
    destruct (run_actions (code h x σL) σL) as [[r1 σ1] evs1] eqn:Hact.
    destruct (unlock h σ1) as [[r2 σ2] evs2] eqn:Hun.
    injection Hrun as <- <- <-.
    exists σ1, evs1, evs2. split_and!; try done.
    by rewrite <-(unlock_returns _ _ _ _ _ Hun).
  - left. rewrite (bind_ok _ _ _ _ _ _ (lock_not_live _ _ Hl)) in Hrun.
    by injection Hrun as <- <- <-.
Qed.

Lemma aging_dispatch_body x w : aging (dispatch_body code x w).
Proof.
  intros σ r σ' evs
    [(Hl & -> & -> & ->)|(h & c & σ1 & evs1 & evs2 & -> & Hc & Hs & H)]%
    dispatch_body_inv.
  - apply ages_same_counts; [done..|]. by intros h ?%list_elem_of_singleton.
  - simpl in H. destruct H as (Hact & Hun & ->).
    change (Lock (Some h) true :: Invoked h x :: evs1 ++ evs2)
      with ([Lock (T:=T) (Some h) true; Invoked h x] ++ evs1 ++ evs2).
    apply (ages_trans σ (set_ctrl h (Ctrl (owners c) (S (locks c))) σ));
      [|eapply ages_trans].
    + eapply ages_set_ctrl; [done|unfold strong in *; simpl; lia| |].
      * intros h' Hin. exfalso.
        apply elem_of_cons in Hin as [?|Hin]; [done|].
        by apply list_elem_of_singleton in Hin.
      * unfold strong; simpl; lia.
    + by eapply aging_run_actions.
    + by eapply aging_unlock.
Qed.

Lemma aging_dispatch x cbs : aging (dispatch code x cbs).
Proof.
  induction cbs as [|w cbs IH]; simpl.
  - apply aging_ret.
  - apply aging_bind; [apply aging_dispatch_body|done].
Qed.

Lemma appending_dispatch_body x w : appending (dispatch_body code x w).
Proof.
  intros σ r σ' evs
    [(Hl & -> & -> & ->)|(h & c & σ1 & evs1 & evs2 & -> & Hc & Hs & H)]%
    dispatch_body_inv; [done|].
  simpl in H. destruct H as (Hact & Hun & ->).
  apply appending_run_actions in Hact. apply appending_unlock in Hun.
  simpl in Hact. etrans; [exact Hact|exact Hun].
Qed.

Lemma appending_dispatch x cbs : appending (dispatch code x cbs).
Proof.
  induction cbs as [|w cbs IH]; simpl.
  - apply appending_ret.
  - apply appending_bind; [apply appending_dispatch_body|done].
Qed.

(** What one iteration logs: the lock attempt, then, when it succeeded,
    the invocation followed by destructions only. *)
Lemma dispatch_body_shape x w σ r σ' evs :
  dispatch_body code x w σ = (r, σ', evs) →
  (¬ live σ w ∧ r = Ok () ∧ σ' = σ ∧ evs = [Lock w false])
  ∨ (∃ h ds, w = Some h ∧ live σ w ∧
       evs = Lock w true :: Invoked h x :: ds ∧
       ∀ ev, ev ∈ ds → ∃ h', ev = Destroyed h').
Proof.
  intros [?|(h & c & σ1 & evs1 & evs2 & -> & Hc & Hs & H)]%dispatch_body_inv;
    [by left|right].
  simpl in H. destruct H as (Hact & Hun & ->).
  exists h, (evs1 ++ evs2). split_and!; [done| |done|].
  - apply live_use_count. simpl. by rewrite Hc.
  - intros ev [Hin|Hin]%elem_of_app.
    + by eapply silent_run_actions.
    + by eapply silent_unlock.
Qed.

(** ** Projections of the log *)

Lemma lock_log_app evs1 evs2 :
  lock_log (evs1 ++ evs2) = lock_log evs1 ++ lock_log evs2.
Proof. apply omap_app. Qed.

Lemma invocations_app evs1 evs2 :
  invocations (evs1 ++ evs2) = invocations evs1 ++ invocations evs2.
Proof. apply omap_app. Qed.

Lemma silent_projections evs :
  (∀ ev, ev ∈ evs → ∃ h, ev = Destroyed h) →
  lock_log evs = [] ∧ invocations evs = [].
Proof.
  induction evs as [|ev evs IH]; [done|]. intros Hsil.
  destruct (Hsil ev) as [h ->]; [by left|]. simpl.
  apply IH. intros ev Hin. apply Hsil. by right.
Qed.

Lemma elem_of_lock_log evs w : w ∈ lock_log evs ↔ ∃ b, Lock w b ∈ evs.
Proof.
  unfold lock_log. rewrite list_elem_of_omap. split.
  - intros ([w' b|h x|h] & Hin & [= <-]). by exists b.
  - intros [b Hin]. by exists (Lock w b).
Qed.

Lemma elem_of_invocations evs h x :
  (h, x) ∈ invocations evs ↔ Invoked h x ∈ evs.
Proof.
  unfold invocations. rewrite list_elem_of_omap. split.
  - by intros ([w' b|h' x'|h'] & Hin & [= <- <-]).
  - intros Hin. by exists (Invoked h x).
Qed.

Lemma dispatch_body_lock_log x w σ r σ' evs :
  dispatch_body code x w σ = (r, σ', evs) → lock_log evs = [w].
Proof.
  intros [(_ & _ & _ & ->)|(h & ds & -> & Hl & -> & Hds)]%dispatch_body_shape;
    [done|].
  simpl. by destruct (silent_projections _ Hds) as [-> _].
Qed.

Lemma dispatch_body_invocations x w σ r σ' evs :
  dispatch_body code x w σ = (r, σ', evs) →
  invocations evs = match w with
                    | Some h => if decide (live σ w) then [(h, x)] else []
                    | None => []
                    end.
Proof.
  intros [(Hl & _ & _ & ->)|(h & ds & -> & Hl & -> & Hds)]%dispatch_body_shape.
  - destruct w; [|done]. by rewrite decide_False.
  - rewrite decide_True by done. simpl.
    by destruct (silent_projections _ Hds) as [_ ->].
Qed.

(** ** The dispatch pass *)

(** The pass tries the entries of the copy one by one in list order, each
    once, up to the end or to the first callback that raises. *)
Lemma dispatch_lock_log x cbs σ r σ' evs :
  dispatch code x cbs σ = (r, σ', evs) →
  lock_log evs `prefix_of` cbs ∧ (r = Ok () → lock_log evs = cbs).
Proof.
  revert σ evs. induction cbs as [|w cbs IH]; intros σ evs; simpl.
  - by intros [= <- <- <-].
  - intros [(u & σ1 & evs1 & evs2 & H1 & H2 & ->)|(e & H1 & ->)]%bind_inv.
    + rewrite lock_log_app, (dispatch_body_lock_log _ _ _ _ _ _ H1). simpl.
      destruct (IH _ _ H2) as [Hp Heq]. split; [by apply prefix_cons|].
      intros Hr. by rewrite Heq.
    + rewrite (dispatch_body_lock_log _ _ _ _ _ _ H1).
      split; [|done]. apply prefix_cons, prefix_nil.
Qed.

(** Only entries of the copy are invoked, with the published arguments. *)
Lemma dispatch_invoked_elem x cbs σ r σ' evs h y :
  dispatch code x cbs σ = (r, σ', evs) →
  Invoked h y ∈ evs → Some h ∈ cbs ∧ y = x.
Proof.
  revert σ evs. induction cbs as [|w cbs IH]; intros σ evs; simpl.
  - intros [= <- <- <-]. by intros ?%elem_of_nil.
  - assert (∀ σ1 r1 evs1, dispatch_body code x w σ = (r1, σ1, evs1) →
      Invoked h y ∈ evs1 → Some h ∈ w :: cbs ∧ y = x) as Hbody.
    { intros σ1 r1 evs1 Hb Hin%elem_of_invocations.
      rewrite (dispatch_body_invocations _ _ _ _ _ _ Hb) in Hin.
      destruct w as [h'|]; [|by apply elem_of_nil in Hin].
      destruct (decide _); [|by apply elem_of_nil in Hin].
      apply list_elem_of_singleton in Hin as [= -> ->]. split; [by left|done]. }
    intros [(u & σ1 & evs1 & evs2 & H1 & H2 & ->)|(e & H1 & ->)]%bind_inv.
    + intros [Hin|Hin]%elem_of_app; [by eapply Hbody|].
      destruct (IH _ _ H2 Hin). split; [by right|done].
    + by eapply Hbody.
Qed.

(** A handle that is dead when the pass starts is not invoked by it. *)
Lemma dispatch_dead_not_invoked x cbs σ r σ' evs h y :
  dead σ h → dispatch code x cbs σ = (r, σ', evs) → Invoked h y ∉ evs.
Proof.
  revert σ evs. induction cbs as [|w cbs IH]; intros σ evs Hd; simpl.
  - intros [= <- <- <-]. by intros ?%elem_of_nil.
  - assert (∀ σ1 r1 evs1, dispatch_body code x w σ = (r1, σ1, evs1) →
      Invoked h y ∉ evs1) as Hbody.
    { intros σ1 r1 evs1 Hb Hin%elem_of_invocations.
      rewrite (dispatch_body_invocations _ _ _ _ _ _ Hb) in Hin.
      destruct w as [h'|]; [|by apply elem_of_nil in Hin].
      destruct (decide _) as [Hl|]; [|by apply elem_of_nil in Hin].
      apply list_elem_of_singleton in Hin as [= -> ->].
      by apply dead_not_live in Hd. }
    intros [(u & σ1 & evs1 & evs2 & H1 & H2 & ->)|(e & H1 & ->)]%bind_inv.
    + apply not_elem_of_app. split; [by eapply Hbody|].
      eapply IH; [|done]. eapply ages_dead; [|done].
      by eapply aging_dispatch_body.
    + by eapply Hbody.
Qed.

(** A handle with a control block is live after a run exactly when it was
    live before and the run logged no destruction of it. *)
Lemma ages_live_iff σ σ1 evs h :
  ages σ σ1 evs → allocated σ h →
  live σ1 (Some h) ↔ live σ (Some h) ∧ Destroyed h ∉ evs.
Proof.
  intros Hages Ha. split.
  - intros Hl1. split.
    + destruct (decide (live σ (Some h))) as [|Hl]; [done|].
      exfalso. eapply dead_not_live; [|exact Hl1].
      eapply ages_dead; [done|]. by apply not_live_dead.
    + intros Hin. eapply dead_not_live; [|exact Hl1].
      by eapply ages_destroyed.
  - intros [Hl Hnin]. destruct (decide (live σ1 (Some h))) as [|Hl1]; [done|].
    exfalso. apply Hnin. by eapply ages_died.
Qed.

Lemma dispatch_body_head x w σ r σ' evs :
  dispatch_body code x w σ = (r, σ', evs) →
  ∃ b tl, evs = Lock w b :: tl ∧ (b = true ↔ live σ w) ∧
          ∀ w' b', Lock w' b' ∉ tl.
Proof.
  intros [(Hl & _ & _ & ->)|(h & ds & -> & Hl & -> & Hds)]%dispatch_body_shape.
  - exists false, []. split_and!; [done|by split| ].
    by intros w' b' ?%elem_of_nil.
  - exists true, (Invoked h x :: ds). split_and!; [done|by split| ].
    intros w' b' [?|Hin]%elem_of_cons; [done|].
    by destruct (Hds _ Hin).
Qed.

(** An entry of the copy is invoked exactly when its handle is live at the
    instant its turn comes: it was live when the pass started and no
    destruction of it was logged before. *)
Lemma dispatch_lock_spec x cbs σ r σ' evs :
  dispatch code x cbs σ = (r, σ', evs) →
  (∀ h, Some h ∈ cbs → allocated σ h) →
  ∀ evs1 w b evs2, evs = evs1 ++ Lock w b :: evs2 →
  b = true ↔ live σ w ∧ ∀ h, w = Some h → Destroyed h ∉ evs1.
Proof.
  revert σ evs. induction cbs as [|w0 cbs IH]; intros σ evs; simpl.
  - intros [= <- <- <-] _ evs1 w b evs2 Heq. by destruct evs1.
  - intros Hrun Hall evs1 w b evs2 Heq.
    assert (∀ σ1 r1 evsb m, dispatch_body code x w0 σ = (r1, σ1, evsb) →
      evsb = evs1 ++ Lock w b :: m →
      b = true ↔ live σ w ∧ ∀ h, w = Some h → Destroyed h ∉ evs1) as Hbody.
    { intros σ1 r1 evsb m (b0 & tl & -> & Hb0 & Htl)%dispatch_body_head Hsplit.
      destruct evs1 as [|ev evs1]; simpl in Hsplit.
      - injection Hsplit as -> -> _. rewrite Hb0. split; [|by intros []].
        intros Hl. split; [done|]. by intros h _ ?%elem_of_nil.
      - injection Hsplit as _ ->. exfalso. eapply (Htl w b).
        apply elem_of_app. right. by left. }
    apply bind_inv in Hrun
      as [(u & σ1 & evsb & evsr & H1 & H2 & ->)|(e & H1 & ->)];
      [|by eapply Hbody].
    apply app_eq_app_cons in Heq as [(m & Hb & _)|(m & -> & Hr)];
      [by eapply Hbody|].
    assert (ages σ σ1 evsb) as Hages by by eapply aging_dispatch_body.
    assert (∀ h, Some h ∈ cbs → allocated σ1 h) as Hall1.
    { intros h Hin. eapply Nat.lt_le_trans; [apply Hall; by right|].
      by eapply ages_alloc. }
    rewrite (IH _ _ H2 Hall1 _ _ _ _ Hr).
    destruct w as [h|];
      [|split; intros [Hl _]; by apply live_is_Some in Hl as [? ?]].
    assert (Some h ∈ cbs) as Hin.
    { eapply (elem_of_prefix (lock_log evsr)); [|by eapply dispatch_lock_log].
      apply elem_of_lock_log. exists b. rewrite Hr.
      apply elem_of_app. right. by left. }
    rewrite (ages_live_iff _ _ _ _ Hages) by (apply Hall; by right).
    split.
    + intros [[Hl Hn1] Hn2]. split; [done|]. intros ? [= <-].
      apply not_elem_of_app. split; [done|by apply Hn2].
    + intros [Hl Hn]. specialize (Hn h eq_refl).
      apply not_elem_of_app in Hn as [Hn1 Hn2]. split; [done|].
      by intros ? [= <-].
Qed.

Lemma dispatch_body_never_after x w σ r σ' evs h y :
  dispatch_body code x w σ = (r, σ', evs) →
  never_after (Destroyed h) (Invoked h y) evs.
Proof.
  intros [(Hl & _ & _ & ->)|(h' & ds & -> & Hl & -> & Hds)]%dispatch_body_shape
    l1 l2 Heq.
  - by destruct l1 as [|? [|? ?]].
  - destruct l1 as [|? [|? l1]]; simplify_eq/=.
    intros Hin. destruct (Hds (Invoked h y)) as [? ?]; [|done].
    apply elem_of_app. right. by right.
Qed.

(** Once the log shows the destruction of a handle, the rest of the pass
    does not invoke it. *)
Lemma dispatch_never_after x cbs σ r σ' evs h y :
  dispatch code x cbs σ = (r, σ', evs) →
  never_after (Destroyed h) (Invoked h y) evs.
Proof.
  revert σ evs. induction cbs as [|w cbs IH]; intros σ evs; simpl.
  - intros [= <- <- <-] l1 l2 Heq. by destruct l1.
  - intros [(u & σ1 & evs1 & evs2 & H1 & H2 & ->)|(e & H1 & ->)]%bind_inv.
    + apply never_after_app.
      * by eapply dispatch_body_never_after.
      * by eapply IH.
      * intros Hin. eapply dispatch_dead_not_invoked; [|done].
        eapply ages_destroyed; [|done]. by eapply aging_dispatch_body.
    + by eapply dispatch_body_never_after.
Qed.

(** ** The purge loop *)

Lemma purge_loop_spec σ before rest :
  purge_loop σ before rest = (before ++ filter (live σ) rest, rest).
Proof.
  revert before. induction rest as [|w rest IH]; intros before; simpl.
  - by rewrite app_nil_r.
  - destruct (expired σ w) eqn:He; rewrite IH.
    + rewrite filter_cons_False; [done|]. unfold live. congruence.
    + rewrite filter_cons_True by done. by rewrite <-app_assoc.
Qed.

Lemma purge_eq σ : purge (T:=T) (exn:=exn) σ = (Ok (), purged σ, []).
Proof. unfold purge, purged, live_entries. by rewrite purge_loop_spec. Qed.

Lemma publish_eq x σ :
  publish code x σ = dispatch code x (live_entries σ) (purged σ).
Proof.
  unfold publish. rewrite (bind_ok _ _ _ _ _ _ (purge_eq σ)). simpl.
  by destruct (dispatch _ _ _ _) as [[r σ'] evs].
Qed.

Lemma fire_eq_publish x σ : fire code x σ = publish code x σ.
Proof. done. Qed.

Lemma live_entries_live σ w : w ∈ live_entries σ → live σ w.
Proof. unfold live_entries. rewrite list_elem_of_filter. by intros []. Qed.

Lemma live_entries_allocated σ h :
  Some h ∈ live_entries σ → allocated (purged σ) h.
Proof. intros Hin%live_entries_live. by apply live_allocated. Qed.

Lemma aging_publish x : aging (publish code x).
Proof.
  intros σ r σ' evs. rewrite publish_eq. intros Hages%aging_dispatch.
  by destruct Hages.
Qed.

(** ** Sessions *)

Lemma aging_session ops σ σ' evs :
  session code ops σ = (σ', evs) → ages σ σ' evs.
Proof.
  revert σ evs. induction ops as [|o ops IH]; intros σ evs; simpl.
  - intros [= <- <-]. apply ages_refl.
  - destruct (run_op code o σ) as [σ1 evs1] eqn:Hop.
    destruct (session code ops σ1) as [σ2 evs2] eqn:Hses.
    intros [= <- <-]. eapply ages_trans; [|by eapply IH].
    destruct o as [a|x]; simpl in Hop.
    + destruct (run_action a σ) as [[r σa] evsa] eqn:Hact.
      injection Hop as <- <-. by eapply aging_run_action.
    + destruct (publish code x σ) as [[r σa] evsa] eqn:Hpub.
      injection Hop as <- <-. by eapply aging_publish.
Qed.

(** A dead handle is never invoked again, whatever the listeners and the
    owner do next. *)
Lemma session_dead_not_invoked ops σ σ' evs h y :
  dead σ h → session code ops σ = (σ', evs) → Invoked h y ∉ evs.
Proof.
  revert σ evs. induction ops as [|o ops IH]; intros σ evs Hd; simpl.
  - intros [= <- <-]. by intros ?%elem_of_nil.
  - destruct (run_op code o σ) as [σ1 evs1] eqn:Hop.
    destruct (session code ops σ1) as [σ2 evs2] eqn:Hses.
    intros [= <- <-]. apply not_elem_of_app.
    destruct o as [a|x]; simpl in Hop.
    + destruct (run_action a σ) as [[r σa] evsa] eqn:Hact.
      injection Hop as <- <-. split.
      * intros Hin. by destruct (silent_run_action _ _ _ _ _ Hact _ Hin).
      * eapply IH; [|done]. eapply ages_dead; [|done].
        by eapply aging_run_action.
    + destruct (publish code x σ) as [[r σa] evsa] eqn:Hpub.
      injection Hop as <- <-. split.
      * rewrite publish_eq in Hpub.
        by eapply (dispatch_dead_not_invoked _ _ (purged σ)).
      * eapply IH; [|done]. eapply ages_dead; [|done].
        by eapply aging_publish.
Qed.

(** ** Sequencing *)

Lemma run_actions_app acts1 acts2 σ :
  run_actions (T:=T) (acts1 ++ acts2) σ =
  (run_actions acts1 >> run_actions acts2) σ.
Proof.
  revert σ. induction acts1 as [|a acts1 IH]; intros σ; simpl.
  - unfold bind, ret. by destruct (run_actions acts2 σ) as [[r σ2] evs2].
  - unfold bind. destruct (run_action a σ) as [[[u|e] σ1] evs1]; [|done].
    rewrite IH. unfold bind.
    destruct (run_actions acts1 σ1) as [[[u1|e1] σ2] evs2]; [|done].
    destruct (run_actions acts2 σ2) as [[r3 σ3] evs3].
    by rewrite app_assoc.
Qed.

Lemma dispatch_app x cbs1 cbs2 σ :
  dispatch code x (cbs1 ++ cbs2) σ =
  (dispatch code x cbs1 >> dispatch code x cbs2) σ.
Proof.
  revert σ. induction cbs1 as [|w cbs1 IH]; intros σ; simpl.
  - unfold bind, ret. by destruct (dispatch code x cbs2 σ) as [[r σ2] evs2].
  - unfold bind.
    destruct (dispatch_body code x w σ) as [[[u|e] σ1] evs1]; [|done].
    rewrite IH. unfold bind.
    destruct (dispatch code x cbs1 σ1) as [[[u1|e1] σ2] evs2]; [|done].
    destruct (dispatch code x cbs2 σ2) as [[r3 σ3] evs3].
    by rewrite app_assoc.
Qed.


(** A successful lock is followed at once by the invocation. *)
Lemma dispatch_lock_true x cbs σ r σ' evs evs1 w evs2 :
  dispatch code x cbs σ = (r, σ', evs) →
  evs = evs1 ++ Lock w true :: evs2 →
  ∃ h evs3, w = Some h ∧ evs2 = Invoked h x :: evs3.
Proof.
  revert σ evs evs1. induction cbs as [|w0 cbs IH]; intros σ evs evs1; simpl.
  - intros [= <- <- <-] Heq. by destruct evs1.
  - intros Hrun Heq.
    assert (∀ σ1 r1 evsb m k, dispatch_body code x w0 σ = (r1, σ1, evsb) →
      evsb = evs1 ++ Lock w true :: m → evs2 = m ++ k →
      ∃ h evs3, w = Some h ∧ evs2 = Invoked h x :: evs3) as Hbody.
    { intros σ1 r1 evsb m k Hb Hsplit ->.
      destruct (dispatch_body_shape _ _ _ _ _ _ Hb)
        as [(_ & _ & _ & ->)|(h & ds & -> & _ & -> & Hds)].
      - by destruct evs1 as [|? [|? ?]].
      - destruct evs1 as [|ev evs1]; simpl in Hsplit.
        + simplify_eq/=. by exists h, (ds ++ k).
        + injection Hsplit as _ Hsplit. destruct evs1; simplify_eq/=.
          destruct (Hds (Lock w true)) as [? ?]; [|done].
          apply elem_of_app. right. by left. }
    apply bind_inv in Hrun
      as [(u & σ1 & evsb & evsr & H1 & H2 & ->)|(e & H1 & ->)].
    + apply app_eq_app_cons in Heq as [(m & Hb & ->)|(m & -> & Hr)].
      * by eapply Hbody.
      * by eapply IH.
    + eapply (Hbody _ _ _ evs2 []); [done..|by rewrite app_nil_r].
Qed.

(** ** Listener code and the publisher's temporary reference *)

(** Listener code never touches the publisher's temporary references: the
    [locks] of every handle stay as they are, and a handle the publisher
    has locked is not destroyed. *)
Lemma run_action_locks (a : action exn) σ r σ' evs h c :
  run_action (T:=T) a σ = (r, σ', evs) → heap σ !! h = Some c →
  (∃ c', heap σ' !! h = Some c' ∧ locks c' = locks c) ∧
  (0 < locks c → Destroyed h ∉ evs).
Proof.
  intros Hrun Hc.
  assert (h < length (heap σ)) as Hlt by by eapply lookup_lt_Some.
  destruct a as [h0|h0| |w|e]; simpl in Hrun.
  - unfold release in Hrun. destruct (heap σ !! h0) as [c0|] eqn:Hc0;
      [destruct (0 <? owners c0) eqn:Ho|]; injection Hrun as <- <- <-;
      try (split; [by exists c|by intros _ ?%elem_of_nil]).
    simpl. destruct (decide (h0 = h)) as [->|Hne].
    + rewrite list_lookup_insert_eq by done. simplify_eq. split.
      * by eexists.
      * intros Hl. unfold strong; simpl.
        destruct (_ =? 0) eqn:Hz; [|by intros ?%elem_of_nil].
        apply Nat.eqb_eq in Hz. lia.
    + rewrite list_lookup_insert_ne by done. split; [by exists c|].
      intros _. destruct (_ =? 0); [|by intros ?%elem_of_nil].
      by intros [= ->]%list_elem_of_singleton.
  - unfold retain in Hrun. destruct (heap σ !! h0) as [c0|] eqn:Hc0;
      [destruct (0 <? strong c0)|]; injection Hrun as <- <- <-;
      try (split; [by exists c|by intros _ ?%elem_of_nil]).
    simpl. split; [|by intros _ ?%elem_of_nil].
    destruct (decide (h0 = h)) as [->|Hne].
    + rewrite list_lookup_insert_eq by done. simplify_eq. by eexists.
    + rewrite list_lookup_insert_ne by done. by exists c.
  - injection Hrun as <- <- <-. simpl. rewrite lookup_app_l by done.
    split; [by exists c|by intros _ ?%elem_of_nil].
  - unfold subscribe in Hrun. destruct (negb _); injection Hrun as <- <- <-;
      (split; [by exists c|by intros _ ?%elem_of_nil]).
  - injection Hrun as <- <- <-.
    split; [by exists c|by intros _ ?%elem_of_nil].
Qed.

Lemma run_actions_locks acts σ r σ' evs h c :
  run_actions (T:=T) acts σ = (r, σ', evs) → heap σ !! h = Some c →
  (∃ c', heap σ' !! h = Some c' ∧ locks c' = locks c) ∧
  (0 < locks c → Destroyed h ∉ evs).
Proof.
  revert σ evs c. induction acts as [|a acts IH]; intros σ evs c; simpl.
  - intros [= <- <- <-] Hc. split; [by exists c|by intros _ ?%elem_of_nil].
  - intros [(u & σ1 & evs1 & evs2 & H1 & H2 & ->)|(e & H1 & ->)]%bind_inv Hc.
    + destruct (run_action_locks _ _ _ _ _ _ _ H1 Hc) as [(c1 & Hc1 & Hl1) Hn1].
      destruct (IH _ _ _ H2 Hc1) as [(c2 & Hc2 & Hl2) Hn2].
      split; [exists c2; split; [done|congruence]|].
      intros Hl. apply not_elem_of_app. split; [by apply Hn1|].
      apply Hn2. by rewrite Hl1.
    + by eapply run_action_locks.
Qed.

(** ** Listener code without certain actions *)

Lemma run_action_destroyed (a : action exn) σ r σ' evs h :
  run_action (T:=T) a σ = (r, σ', evs) → Destroyed h ∈ evs → a = Release h.
Proof.
  intros Hrun Hin. destruct a as [h0|h0| |w|e]; simpl in Hrun.
  - unfold release in Hrun. destruct (heap σ !! h0) as [c0|];
      [destruct (0 <? owners c0); [destruct (_ =? 0)|]|];
      injection Hrun as <- <- <-; try by apply elem_of_nil in Hin.
    by apply list_elem_of_singleton in Hin as [= ->].
  - unfold retain in Hrun. destruct (heap σ !! h0) as [c0|];
      [destruct (0 <? strong c0)|];
      injection Hrun as <- <- <-; by apply elem_of_nil in Hin.
  - injection Hrun as <- <- <-. by apply elem_of_nil in Hin.
  - unfold subscribe in Hrun. destruct (negb _);
      injection Hrun as <- <- <-; by apply elem_of_nil in Hin.
  - injection Hrun as <- <- <-. by apply elem_of_nil in Hin.
Qed.

Lemma run_actions_destroyed acts σ r σ' evs h :
  run_actions (T:=T) acts σ = (r, σ', evs) → Destroyed h ∈ evs →
  Release h ∈ acts.
Proof.
  revert σ evs. induction acts as [|a acts IH]; intros σ evs; simpl.
  - intros [= <- <- <-]. by intros ?%elem_of_nil.
  - intros [(u & σ1 & evs1 & evs2 & H1 & H2 & ->)|(e & H1 & ->)]%bind_inv Hin.
    + apply elem_of_cons. apply elem_of_app in Hin as [Hin|Hin].
      * left. symmetry. by eapply run_action_destroyed.
      * right. by eapply IH.
    + apply elem_of_cons. left. symmetry. by eapply run_action_destroyed.
Qed.

Lemma run_actions_returns acts σ r σ' evs :
  (∀ e, Throw e ∉ acts) → run_actions (T:=T) acts σ = (r, σ', evs) → r = Ok ().
Proof.
  revert σ evs. induction acts as [|a acts IH]; intros σ evs Hno; simpl.
  - by intros [= <- <- <-].
  - intros [(u & σ1 & evs1 & evs2 & H1 & H2 & ->)|(e & H1 & ->)]%bind_inv.
    + eapply IH; [|done]. intros e Hin. apply (Hno e). by right.
    + exfalso. destruct a as [h0|h0| |w|e0]; simpl in H1.
      * unfold release in H1. by destruct (heap σ !! h0) as [c0|];
          [destruct (0 <? owners c0)|].
      * unfold retain in H1. by destruct (heap σ !! h0) as [c0|];
          [destruct (0 <? strong c0)|].
      * done.
      * unfold subscribe in H1. by destruct (negb _).
      * apply (Hno e0). by left.
Qed.

Lemma run_actions_no_subscribe acts σ r σ' evs :
  (∀ w, Subscribe w ∉ acts) → run_actions (T:=T) acts σ = (r, σ', evs) →
  _callbacks σ' = _callbacks σ.
Proof.
  revert σ evs. induction acts as [|a acts IH]; intros σ evs Hno; simpl.
  - by intros [= <- <- <-].
  - assert (∀ r1 σ1 evs1, run_action (T:=T) a σ = (r1, σ1, evs1) →
      _callbacks σ1 = _callbacks σ) as Hact.
    { intros r1 σ1 evs1 H1. destruct a as [h0|h0| |w|e0]; simpl in H1.
      - unfold release in H1. by destruct (heap σ !! h0) as [c0|];
          [destruct (0 <? owners c0)|]; injection H1 as <- <- <-.
      - unfold retain in H1. by destruct (heap σ !! h0) as [c0|];
          [destruct (0 <? strong c0)|]; injection H1 as <- <- <-.
      - by injection H1 as <- <- <-.
      - exfalso. apply (Hno w). by left.
      - by injection H1 as <- <- <-. }
    intros [(u & σ1 & evs1 & evs2 & H1 & H2 & ->)|(e & H1 & ->)]%bind_inv.
    + rewrite (IH _ _ (λ w Hin, Hno w (list_elem_of_further _ _ _ Hin)) H2).
      by eapply Hact.
    + by eapply Hact.
Qed.

(** ** What a run appends to the list *)

(** Listener code appends observations of handles only, and none of a
    handle that was dead when it started. *)
Lemma run_action_added (a : action exn) σ r σ' evs :
  run_action (T:=T) a σ = (r, σ', evs) →
  ∃ added, _callbacks σ' = _callbacks σ ++ added ∧
           ∀ w, w ∈ added → ∃ h, w = Some h ∧ ¬ dead σ h.
Proof.
  intros Hrun.
  assert (∀ l : list weak_ptr, ∃ added : list weak_ptr, l = l ++ added ∧
            ∀ w, w ∈ added → ∃ h, w = Some h ∧ ¬ dead σ h) as Hsame.
  { intros l. exists []. split; [by rewrite app_nil_r|].
    by intros w ?%elem_of_nil. }
  destruct a as [h0|h0| |w0|e]; simpl in Hrun.
  - unfold release in Hrun. destruct (heap σ !! h0) as [c0|];
      [destruct (0 <? owners c0)|]; injection Hrun as <- <- <-; apply Hsame.
  - unfold retain in Hrun. destruct (heap σ !! h0) as [c0|];
      [destruct (0 <? strong c0)|]; injection Hrun as <- <- <-; apply Hsame.
  - injection Hrun as <- <- <-. apply Hsame.
  - unfold subscribe in Hrun. destruct (expired σ w0) eqn:He; simpl in Hrun;
      injection Hrun as <- <- <-; [apply Hsame|].
    exists [w0]. split; [done|]. intros w ->%list_elem_of_singleton.
    destruct (live_is_Some σ w0 He) as [h ->]. exists h. split; [done|].
    intros Hd. by apply dead_not_live in Hd.
  - injection Hrun as <- <- <-. apply Hsame.
Qed.

Lemma run_actions_added acts σ r σ' evs :
  run_actions (T:=T) acts σ = (r, σ', evs) →
  ∃ added, _callbacks σ' = _callbacks σ ++ added ∧
           ∀ w, w ∈ added → ∃ h, w = Some h ∧ ¬ dead σ h.
Proof.
  revert σ evs. induction acts as [|a acts IH]; intros σ evs; simpl.
  - intros [= <- <- <-]. exists []. split; [by rewrite app_nil_r|].
    by intros w ?%elem_of_nil.
  - intros [(u & σ1 & evs1 & evs2 & H1 & H2 & ->)|(e & H1 & ->)]%bind_inv;
      [|by eapply run_action_added].
    destruct (run_action_added _ _ _ _ _ H1) as (k1 & Hk1 & Hd1).
    destruct (IH _ _ H2) as (k2 & Hk2 & Hd2).
    exists (k1 ++ k2). split; [by rewrite Hk2, Hk1, app_assoc|].
    intros w [Hin|Hin]%elem_of_app; [by apply Hd1|].
    destruct (Hd2 w Hin) as (h & -> & Hnd). exists h. split; [done|].
    intros Hd. apply Hnd. eapply ages_dead; [|done].
    by eapply aging_run_action.
Qed.

Lemma dispatch_body_added x w0 σ r σ' evs :
  dispatch_body code x w0 σ = (r, σ', evs) →
  ∃ added, _callbacks σ' = _callbacks σ ++ added ∧
           ∀ w, w ∈ added → ∃ h, w = Some h ∧ ¬ dead σ h.
Proof.
  intros [(_ & _ & -> & _)|(h0 & c & σ1 & evs1 & evs2 & -> & Hc & Hs & H)]%
    dispatch_body_inv.
  { exists []. split; [by rewrite app_nil_r|]. by intros w ?%elem_of_nil. }
  simpl in H. destruct H as (Hact & Hun & _).
  destruct (run_actions_added _ _ _ _ _ Hact) as (k & Hk & Hd).
  simpl in Hk. exists k. split.
  - unfold unlock in Hun. by destruct (heap σ1 !! h0); injection Hun as <- _.
  - intros w Hin. destruct (Hd w Hin) as (h & -> & Hnd).
    exists h. split; [done|]. intros Hdead. apply Hnd.
    eapply (ages_dead σ _ (@nil (event T))); [|done].
    eapply ages_set_ctrl; [done|lia| |].
    + by intros h' ?%elem_of_nil.
    + unfold strong; simpl; lia.
Qed.

(** The dispatch pass keeps the list it started with and lets the
    callbacks append to it. *)
Lemma dispatch_added x cbs σ r σ' evs :
  dispatch code x cbs σ = (r, σ', evs) →
  ∃ added, _callbacks σ' = _callbacks σ ++ added ∧
           ∀ w, w ∈ added → ∃ h, w = Some h ∧ ¬ dead σ h.
Proof.
  revert σ evs. induction cbs as [|w0 cbs IH]; intros σ evs; simpl.
  - intros [= <- <- <-]. exists []. split; [by rewrite app_nil_r|].
    by intros w ?%elem_of_nil.
  - intros [(u & σ1 & evs1 & evs2 & H1 & H2 & ->)|(e & H1 & ->)]%bind_inv;
      [|by eapply dispatch_body_added].
    destruct (dispatch_body_added _ _ _ _ _ _ H1) as (k1 & Hk1 & Hd1).
    destruct (IH _ _ H2) as (k2 & Hk2 & Hd2).
    exists (k1 ++ k2). split; [by rewrite Hk2, Hk1, app_assoc|].
    intros w [Hin|Hin]%elem_of_app; [by apply Hd1|].
    destruct (Hd2 w Hin) as (h & -> & Hnd). exists h. split; [done|].
    intros Hd. apply Hnd. eapply ages_dead; [|done].
    by eapply aging_dispatch_body.
Qed.

(** After [publish] the list is the live entries it started with, in
    their order, followed by what the callbacks subscribed. *)
Lemma publish_callbacks x σ r σ' evs :
  publish code x σ = (r, σ', evs) →
  ∃ added, _callbacks σ' = live_entries σ ++ added ∧
           ∀ w, w ∈ added → ∃ h, w = Some h ∧ ¬ dead σ h.
Proof.
  rewrite publish_eq. intros Hrun. by apply dispatch_added in Hrun.
Qed.

(** A handle that is dead when [publish] is called has no entry in the
    list when it returns. *)
Lemma publish_drops_dead x σ r σ' evs h :
  dead σ h → publish code x σ = (r, σ', evs) → Some h ∉ _callbacks σ'.
Proof.
  intros Hd Hpub. destruct (publish_callbacks _ _ _ _ _ Hpub) as (k & -> & Hk).
  intros [Hin|Hin]%elem_of_app.
  - apply live_entries_live in Hin. by apply dead_not_live in Hd.
  - by destruct (Hk _ Hin) as (h' & [= <-] & Hnd).
Qed.

(** The pass over an entry that is live at its turn: the callback runs
    from the state in which the publisher holds its own reference, and
    that reference is dropped, with the destruction it may cause, when the
    callback has returned or raised. *)
Lemma dispatch_body_locked x σ h c rc σc evsc c1 :
  heap σ !! h = Some c → 0 < strong c →
  let σL := set_ctrl h (Ctrl (owners c) (S (locks c))) σ in
  run_actions (code h x σL) σL = (rc, σc, evsc) →
  heap σc !! h = Some c1 →
  locks c1 = S (locks c) ∧
  dispatch_body code x (Some h) σ =
    (rc, set_ctrl h (Ctrl (owners c1) (locks c)) σc,
     Lock (Some h) true :: Invoked h x :: evsc ++
     (if owners c1 + locks c =? 0 then [Destroyed h] else [])).
Proof.
  intros Hc Hs σL Hrun Hc1.
  assert (h < length (heap σ)) as Hlt by by eapply lookup_lt_Some.
  assert (lock (T:=T) (exn:=exn) (Some h) σ =
          (Ok (Some h), σL, [Lock (Some h) true])) as Hlock.
  { unfold lock. rewrite Hc. by apply Nat.ltb_lt in Hs as ->. }
  assert (heap σL !! h = Some (Ctrl (owners c) (S (locks c)))) as HcL
    by by apply list_lookup_insert_eq.
  destruct (run_actions_locks _ _ _ _ _ _ _ Hrun HcL) as [(c1' & Hc1' & Hl1) _].
  rewrite Hc1 in Hc1'. injection Hc1' as <-. simpl in Hl1. split; [done|].
  unfold dispatch_body. rewrite (bind_ok _ _ _ _ _ _ Hlock).
  unfold scoped, call.
  rewrite (bind_ok _ _ σL () σL [Invoked h x]) by done.
  rewrite Hrun. unfold unlock. rewrite Hc1, Hl1. done.
Qed.

Lemma publish_expired_not_invoked x σ r σ' evs h y :
  expired σ (Some h) = true →
  publish code x σ = (r, σ', evs) → Invoked h y ∉ evs.
Proof.
  rewrite publish_eq. intros He Hrun Hin.
  destruct (dispatch_invoked_elem _ _ _ _ _ _ _ _ Hrun Hin) as [Hel _].
  apply live_entries_live in Hel. unfold live in Hel. congruence.
Qed.

(** [publish] on a publisher without subscribers does nothing. *)
Lemma publish_empty x σ :
  _callbacks σ = [] → publish code x σ = (Ok (), σ, []).
Proof.
  intros Hnil. rewrite publish_eq. unfold purged, live_entries.
  rewrite Hnil. by destruct σ; simplify_eq/=.
Qed.

(** * The claims *)

(** C4. Subscribing a weak observation whose handle is expired at the call
    changes nothing: the publisher and the handles are as before, no event
    is logged and the call returns normally; on a publisher without
    subscribers the subscriber count stays 0. *)
Theorem subscribe_expired_noop σ w :
  expired σ w = true →
  subscribe (T:=T) (exn:=exn) w σ = (Ok (), σ, []) ∧
  (_callbacks σ = [] →
   length (_callbacks (snd (fst (subscribe (T:=T) (exn:=exn) w σ)))) = 0).
Proof.
  intros He. unfold subscribe. rewrite He. simpl. split; [done|].
  by intros ->.
Qed.

(** C5. The purge loop at the start of [publish] tests every entry once,
    front to back, and keeps exactly the entries that are not expired, in
    their order; [publish] is this purge followed by the dispatch pass
    over the purged list, so that when it returns [_callbacks] is that
    purged list followed by what the callbacks subscribed, with no entry
    of a handle that was expired at the call.  A subscriber whose only
    strong reference the listener released keeps its slot in [_callbacks]
    until then; the next [publish] does not invoke it and returns with
    its entry gone. *)
Theorem purge_removes_expired σ :
  purge_loop σ [] (_callbacks σ) =
    (filter (λ w, expired σ w = false) (_callbacks σ), _callbacks σ) ∧
  purge (T:=T) (exn:=exn) σ =
    (Ok (), World (heap σ) (filter (λ w, expired σ w = false) (_callbacks σ)),
     []) ∧
  (∀ x, publish code x σ =
        dispatch code x (filter (λ w, expired σ w = false) (_callbacks σ))
          (World (heap σ)
                 (filter (λ w, expired σ w = false) (_callbacks σ)))) ∧
  (∀ x r σ' evs, publish code x σ = (r, σ', evs) →
     lock_log evs
       `prefix_of` filter (λ w, expired σ w = false) (_callbacks σ) ∧
     ∃ added,
       _callbacks σ' =
         filter (λ w, expired σ w = false) (_callbacks σ) ++ added ∧
       ∀ w, w ∈ added →
            ∃ h, w = Some h ∧
                 ¬ (allocated σ h ∧ expired σ (Some h) = true)) ∧
  (∀ h c, heap σ !! h = Some c → owners c = 1 → locks c = 0 →
     ∃ σ1, release (T:=T) (exn:=exn) h σ = (Ok (), σ1, [Destroyed h]) ∧
       _callbacks σ1 = _callbacks σ ∧
       expired σ1 (Some h) = true ∧
       (Some h ∉ _callbacks (purged σ1)) ∧
       (∀ x r σ' evs, publish code x σ1 = (r, σ', evs) →
          (∀ y, Invoked h y ∉ evs) ∧ Some h ∉ _callbacks σ')).
Proof.
  split_and!.
  - by rewrite purge_loop_spec.
  - by rewrite purge_eq.
  - intros x. apply publish_eq.
  - intros x r σ' evs Hpub. split.
    + rewrite publish_eq in Hpub. by apply (dispatch_lock_log _ _ _ _ _ _ Hpub).
    + by apply publish_callbacks in Hpub.
  - intros h c Hc Ho Hl.
    assert (h < length (heap σ)) as Hlt by by eapply lookup_lt_Some.
    assert (expired (set_ctrl h (Ctrl 0 0) σ) (Some h) = true) as He.
    { apply expired_use_count. by rewrite use_count_set_ctrl, decide_True. }
    exists (set_ctrl h (Ctrl 0 0) σ). split_and!; [|done|done| |].
    + unfold release. rewrite Hc, Ho, Hl. done.
    + intros Hin%live_entries_live. unfold live in Hin. congruence.
    + intros x r σ' evs Hpub. split.
      * intros y. by eapply publish_expired_not_invoked.
      * eapply publish_drops_dead; [|done]. split; [|done].
        by apply allocated_set_ctrl.
Qed.


(** C7. When the callback of an entry raises, [publish] does not catch the
    error: it returns it to its caller, with the temporary strong
    reference dropped by the unwinding, and no entry after the failing one
    is tried or invoked.  [subscribe] and the purge loop always return
    normally. *)
Theorem callback_error_propagates x σ pre h post σ1 evs1 σL evsL e σc evsc :
  live_entries σ = pre ++ Some h :: post →
  dispatch code x pre (purged σ) = (Ok (), σ1, evs1) →
  lock (T:=T) (exn:=exn) (Some h) σ1 = (Ok (Some h), σL, evsL) →
  call code h x σL = (Raise e, σc, evsc) →
  (∃ σ' evs, publish code x σ = (Raise e, σ', evs) ∧
     lock_log evs = pre ++ [Some h] ∧
     invocations evs = invocations evs1 ++ [(h, x)]) ∧
  (∀ w σ0, ∃ σ2, subscribe (T:=T) (exn:=exn) w σ0 = (Ok (), σ2, [])) ∧
  (∀ σ0, ∃ σ2, purge (T:=T) (exn:=exn) σ0 = (Ok (), σ2, [])).
Proof.
  intros Hcbs Hpre Hlock Hcall. split_and!.
  - assert (∃ σ' evs2,
      dispatch_body code x (Some h) σ1 = (Raise e, σ', evs2)) as (σ' & evs2 & Hb).
    { unfold dispatch_body. rewrite (bind_ok _ _ _ _ _ _ Hlock).
      unfold scoped. rewrite Hcall.
      destruct (unlock h σc) as [[r2 σ2] evs2']. by eexists _, _. }
    exists σ', (evs1 ++ evs2).
    assert (dispatch code x (pre ++ Some h :: post) (purged σ) =
            (Raise e, σ', evs1 ++ evs2)) as Hrun.
    { rewrite dispatch_app, (bind_ok _ _ _ _ _ _ Hpre). simpl.
      by rewrite (bind_raise _ _ _ _ _ _ Hb). }
    rewrite publish_eq, Hcbs. split_and!; [done| |].
    + rewrite lock_log_app, (dispatch_body_lock_log _ _ _ _ _ _ Hb).
      destruct (dispatch_lock_log _ _ _ _ _ _ Hpre) as [_ ->]; done.
    + rewrite invocations_app, (dispatch_body_invocations _ _ _ _ _ _ Hb).
      rewrite decide_True; [done|].
      apply live_use_count. unfold lock in Hlock. simpl.
      destruct (heap σ1 !! h) as [c|]; [|done].
      destruct (0 <? strong c) eqn:Hs; [|done]. by apply Nat.ltb_lt.
  - intros w σ0. unfold subscribe. destruct (negb _); by eexists.
  - intros σ0. rewrite purge_eq. by eexists.
Qed.

(** C1. In every publication, each entry of the copy is tried once, in
    order; an entry is invoked exactly when no earlier callback of this
    pass destroyed its handle, so a callback that drops the last strong
    reference to its own handle makes no other entry be missed; and a
    handle destroyed during the pass is not invoked again, neither later
    in this publication nor in anything that follows it. *)
Theorem self_destruction_safety x σ r σ' evs :
  publish code x σ = (r, σ', evs) →
  lock_log evs `prefix_of` live_entries σ ∧
  (r = Ok () → lock_log evs = live_entries σ) ∧
  (∀ evs1 w b evs2, evs = evs1 ++ Lock w b :: evs2 →
     ∃ h, w = Some h ∧
          (b = true ↔ Destroyed h ∉ evs1) ∧
          (b = true → ∃ evs3, evs2 = Invoked h x :: evs3)) ∧
  (∀ h y, never_after (Destroyed h) (Invoked h y) evs) ∧
  (∀ h, Destroyed h ∈ evs →
     expired σ' (Some h) = true ∧
     ∀ ops σ'' evs' y, session code ops σ' = (σ'', evs') →
                       Invoked h y ∉ evs').
Proof.
  rewrite publish_eq. intros Hrun.
  destruct (dispatch_lock_log _ _ _ _ _ _ Hrun) as [Hpre Hall].
  split_and!; [done|done| | |].
  - intros evs1 w b evs2 Heq.
    assert (w ∈ live_entries σ) as Hin.
    { eapply elem_of_prefix; [|done]. apply elem_of_lock_log. exists b.
      rewrite Heq. apply elem_of_app. right. by left. }
    apply live_entries_live in Hin as Hl.
    destruct (live_is_Some _ _ Hl) as [h ->]. exists h. split_and!; [done| |].
    + rewrite (dispatch_lock_spec _ _ _ _ _ _ Hrun
                 (live_entries_allocated σ) _ _ _ _ Heq).
      split; [intros [_ Hn]; by apply Hn|].
      intros Hn. split; [done|]. by intros ? [= <-].
    + intros ->.
      destruct (dispatch_lock_true _ _ _ _ _ _ _ _ _ Hrun Heq)
        as (h' & evs3 & [= <-] & ->).
      by exists evs3.
  - intros h y. by eapply dispatch_never_after.
  - intros h Hin.
    assert (dead σ' h) as Hd.
    { eapply ages_destroyed; [|done]. by eapply aging_dispatch. }
    split; [by destruct Hd|].
    intros ops σ'' evs' y. by apply session_dead_not_invoked.
Qed.

(** C10. When the dispatch pass of [publish] reaches an entry whose handle
    is live, it takes a strong reference of its own before it invokes the
    callback, and the callback runs in that state: whatever the listener
    code does up to any point of the invocation, also releasing every
    reference the listeners hold, the handle is not expired and its
    function object is not destroyed.  The temporary reference is dropped
    when the invocation returns or raises, and the destruction, if the
    handle has no other reference left, is logged there, after everything
    the callback did and before the pass goes on (or the error leaves
    [publish]). *)
Theorem callback_kept_alive x σ pre h post σ1 evs1 c rc σc evsc :
  live_entries σ = pre ++ Some h :: post →
  dispatch code x pre (purged σ) = (Ok (), σ1, evs1) →
  heap σ1 !! h = Some c → 0 < strong c →
  let σL := set_ctrl h (Ctrl (owners c) (S (locks c))) σ1 in
  run_actions (code h x σL) σL = (rc, σc, evsc) →
  lock (T:=T) (exn:=exn) (Some h) σ1 =
    (Ok (Some h), σL, [Lock (Some h) true]) ∧
  (∀ acts1 acts2 r1 σm (evsm : list (event T)),
     code h x σL = acts1 ++ acts2 →
     run_actions acts1 σL = (r1, σm, evsm) →
     ∃ cm, heap σm !! h = Some cm ∧ locks cm = S (locks c) ∧
       expired σm (Some h) = false ∧
       (Destroyed h ∉ evsm)) ∧
  ∃ c1, heap σc !! h = Some c1 ∧ locks c1 = S (locks c) ∧
    let σu := set_ctrl h (Ctrl (owners c1) (locks c)) σc in
    let evsu := if owners c1 + locks c =? 0 then [Destroyed h] else [] in
    dispatch_body code x (Some h) σ1 =
      (rc, σu, Lock (Some h) true :: Invoked h x :: evsc ++ evsu) ∧
    publish code x σ =
      match rc with
      | Ok _ =>
          let '(r, σ', evs2) := dispatch code x post σu in
          (r, σ',
           evs1 ++ Lock (Some h) true :: Invoked h x :: evsc ++ evsu ++ evs2)
      | Raise e =>
          (Raise e, σu,
           evs1 ++ Lock (Some h) true :: Invoked h x :: evsc ++ evsu)
      end.
Proof.
  intros Hcbs Hpre Hc Hs σL Hrun.
  assert (h < length (heap σ1)) as Hlt by by eapply lookup_lt_Some.
  assert (heap σL !! h = Some (Ctrl (owners c) (S (locks c)))) as HcL
    by by apply list_lookup_insert_eq.
  split_and!.
  - unfold lock. rewrite Hc. by apply Nat.ltb_lt in Hs as ->.
  - intros acts1 acts2 r1 σm evsm Hcode Hrun1.
    destruct (run_actions_locks _ _ _ _ _ _ _ Hrun1 HcL)
      as [(cm & Hcm & Hlm) Hn]. simpl in Hlm, Hn.
    exists cm. split_and!; [done..| |].
    + apply Nat.eqb_neq. simpl. rewrite Hcm. unfold strong. lia.
    + apply Hn. lia.
  - destruct (run_actions_locks _ _ _ _ _ _ _ Hrun HcL)
      as [(c1 & Hc1 & Hl1) _]. simpl in Hl1.
    exists c1. split_and!; [done..|].
    destruct (dispatch_body_locked _ _ _ _ _ _ _ _ Hc Hs Hrun Hc1)
      as [_ Hbody].
    split; [done|].
    rewrite publish_eq, Hcbs, dispatch_app, (bind_ok _ _ _ _ _ _ Hpre).
    cbn beta. simpl dispatch. destruct rc as [[]|e].
    + rewrite (bind_ok _ _ _ _ _ _ Hbody).
      destruct (dispatch code x post _) as [[r σ'] evs2].
      simpl. by rewrite <-app_assoc.
    + by rewrite (bind_raise _ _ _ _ _ _ Hbody).
Qed.

(** C9. [_callbacks] changes in two ways only.  Listener code changes it
    through [subscribe] alone, by one entry appended at the end, and the
    purge loop removes the expired entries; the dispatch pass itself
    removes and reorders nothing, and leaves the list as it is when no
    callback subscribes.  So [publish] returns with the entries that were
    live at the call, in their order, followed by what the callbacks
    subscribed (nothing else, and nothing when no callback subscribes).
    An entry whose handle expires after the copy was taken is therefore
    still in [_callbacks] when [publish] returns, stays there whatever the
    listeners do, and the next [publish] returns without it and without
    having invoked it. *)
Theorem callbacks_mutation_paths :
  (∀ (a : action exn) σ r σ1 (evs : list (event T)),
     run_action a σ = (r, σ1, evs) →
     _callbacks σ1 = _callbacks σ ∨
     ∃ w, a = Subscribe w ∧ expired σ w = false ∧
          _callbacks σ1 = _callbacks σ ++ [w]) ∧
  (∀ σ, ∃ σ1, purge (T:=T) (exn:=exn) σ = (Ok (), σ1, []) ∧
     heap σ1 = heap σ ∧
     _callbacks σ1 = filter (λ w, expired σ w = false) (_callbacks σ)) ∧
  (∀ x cbs σ r σ1 evs,
     dispatch code x cbs σ = (r, σ1, evs) →
     _callbacks σ `prefix_of` _callbacks σ1 ∧
     ((∀ h σ0 w, Subscribe w ∉ code h x σ0) → _callbacks σ1 = _callbacks σ)) ∧
  (∀ x σ r σ1 evs,
     publish code x σ = (r, σ1, evs) →
     (∃ added,
        _callbacks σ1 =
          filter (λ w, expired σ w = false) (_callbacks σ) ++ added ∧
        ∀ w, w ∈ added →
             ∃ h, w = Some h ∧
                  ¬ (allocated σ h ∧ expired σ (Some h) = true)) ∧
     ((∀ h σ0 w, Subscribe w ∉ code h x σ0) →
      _callbacks σ1 = filter (λ w, expired σ w = false) (_callbacks σ))) ∧
  (∀ x σ r σ1 evs h,
     publish code x σ = (r, σ1, evs) →
     Some h ∈ live_entries σ → expired σ1 (Some h) = true →
     Some h ∈ _callbacks σ1 ∧
     ∀ acts r2 σ2 (evs2 : list (event T)),
       run_actions acts σ1 = (r2, σ2, evs2) →
       Some h ∈ _callbacks σ2 ∧ (Some h ∉ _callbacks (purged σ2)) ∧
       ∀ y r3 σ3 evs3,
         publish code y σ2 = (r3, σ3, evs3) →
         (Some h ∉ _callbacks σ3) ∧ ∀ y', Invoked h y' ∉ evs3).
Proof.
  assert (∀ x cbs σ r σ1 evs,
    dispatch code x cbs σ = (r, σ1, evs) →
    (∀ h σ0 w, Subscribe w ∉ code h x σ0) →
    _callbacks σ1 = _callbacks σ) as Hquiet.
  { intros x cbs σ r σ1 evs Hrun Hno. revert σ evs Hrun.
    induction cbs as [|w cbs IH]; intros σ evs; simpl.
    - by intros [= <- <- <-].
    - assert (∀ rb σb evsb, dispatch_body code x w σ = (rb, σb, evsb) →
        _callbacks σb = _callbacks σ) as Hbody.
      { intros rb σb evsb
          [(_ & _ & -> & _)|(h & c & σa & evs1 & evs2 & -> & _ & _ & H)]%
          dispatch_body_inv; [done|].
        simpl in H. destruct H as (Hact & Hun & _).
        apply run_actions_no_subscribe in Hact; [|by intros w; apply Hno].
        simpl in Hact. unfold unlock in Hun. destruct (heap σa !! h);
          by injection Hun as <- <-. }
      intros [(u & σb & evsb & evsr & H1 & H2 & ->)|(e & H1 & ->)]%bind_inv.
      + rewrite (IH _ _ H2). by eapply Hbody.
      + by eapply Hbody. }
  split_and!.
  - intros a σ r σ1 evs Hrun. destruct a as [h0|h0| |w|e0]; simpl in Hrun.
    + left. unfold release in Hrun. by destruct (heap σ !! h0) as [c0|];
        [destruct (0 <? owners c0)|]; injection Hrun as <- <- <-.
    + left. unfold retain in Hrun. by destruct (heap σ !! h0) as [c0|];
        [destruct (0 <? strong c0)|]; injection Hrun as <- <- <-.
    + left. by injection Hrun as <- <- <-.
    + unfold subscribe in Hrun. destruct (expired σ w) eqn:He; simpl in Hrun;
        injection Hrun as <- <- <-; [by left|right]. by exists w.
    + left. by injection Hrun as <- <- <-.
  - intros σ. exists (purged σ). by rewrite purge_eq.
  - intros x cbs σ r σ1 evs Hrun. split; [by eapply appending_dispatch|].
    by eapply Hquiet.
  - intros x σ r σ1 evs Hpub. split.
    + by apply publish_callbacks in Hpub.
    + intros Hno. rewrite publish_eq in Hpub.
      by rewrite (Hquiet _ _ _ _ _ _ Hpub Hno).
  - intros x σ r σ1 evs h Hpub Hin He.
    assert (ages (purged σ) σ1 evs) as Hages.
    { rewrite publish_eq in Hpub. by eapply aging_dispatch. }
    assert (_callbacks (purged σ) `prefix_of` _callbacks σ1) as Hpre.
    { rewrite publish_eq in Hpub. by eapply appending_dispatch. }
    assert (Some h ∈ _callbacks σ1) as Hin1 by by eapply elem_of_prefix.
    split; [done|]. intros acts r2 σ2 evs2 Hact.
    assert (dead σ2 h) as Hd2.
    { eapply ages_dead; [by eapply aging_run_actions|].
      split; [|done]. eapply Nat.lt_le_trans; [|by eapply ages_alloc].
      by apply live_entries_allocated. }
    split_and!.
    + eapply elem_of_prefix; [done|]. by eapply appending_run_actions.
    + intros Hin2%live_entries_live. by eapply dead_not_live.
    + intros y r3 σ3 evs3 Hpub3. split.
      * by eapply publish_drops_dead.
      * intros y'. eapply publish_expired_not_invoked; [|done].
        by destruct Hd2.
Qed.

(** ** Considerate callbacks *)

Lemma dispatch_body_destroyed x h0 σ r σ' evs h :
  dispatch_body code x (Some h0) σ = (r, σ', evs) → Destroyed h ∈ evs →
  h = h0 ∨ ∃ σL, Release h ∈ code h0 x σL.
Proof.
  intros [(_ & _ & _ & ->)|(h1 & c & σ1 & evs1 & evs2 & [= <-] & _ & _ & H)]%
    dispatch_body_inv Hin.
  - by apply list_elem_of_singleton in Hin.
  - simpl in H. destruct H as (Hact & Hun & ->).
    apply elem_of_cons in Hin as [?|Hin]; [done|].
    apply elem_of_cons in Hin as [?|Hin]; [done|].
    apply elem_of_app in Hin as [Hin|Hin].
    + right. eexists. by eapply run_actions_destroyed.
    + left. unfold unlock in Hun. destruct (heap σ1 !! h0);
        [destruct (_ =? 0)|]; injection Hun as <- <-;
        try by apply elem_of_nil in Hin.
      by apply list_elem_of_singleton in Hin as [= ->].
Qed.

Lemma dispatch_considerate x S σ :
  NoDup S → (∀ h, h ∈ S → live σ (Some h)) → considerate code x S →
  ∃ σ' evs, dispatch code x (Some <$> S) σ = (Ok (), σ', evs) ∧
            invocations evs = (λ h, (h, x)) <$> S.
Proof.
  revert σ. induction S as [|h0 S IH]; intros σ Hnd Hlive Hcons; simpl.
  - by eexists _, _.
  - apply NoDup_cons in Hnd as [Hnin Hnd].
    destruct (dispatch_body code x (Some h0) σ) as [[rb σb] evsb] eqn:Hb.
    assert (live σ (Some h0)) as Hl0 by (apply Hlive; by left).
    assert (rb = Ok ()) as ->.
    { destruct (dispatch_body_inv _ _ _ _ _ _ Hb)
        as [(? & _)|(h1 & c & σ1 & evs1 & evs2 & [= <-] & _ & _ & H)]; [done|].
      simpl in H. destruct H as (Hact & _ & _).
      eapply run_actions_returns; [|done]. apply Hcons. by left. }
    destruct (IH σb) as (σ' & evsr & Hrest & Hinv); [done| | |].
    { intros h Hin.
      apply (ages_live_iff σ σb evsb);
        [by eapply aging_dispatch_body|apply live_allocated, Hlive; by right|].
      split; [apply Hlive; by right|].
      intros [->|[σL Hrel]]%(dispatch_body_destroyed _ _ _ _ _ _ _ Hb); [done|].
      destruct (Hcons h0 σL) as [_ Hown]; [by left|].
      apply Hnin. rewrite <-(Hown h Hrel); [done|by right]. }
    { intros h σ0 Hin. destruct (Hcons h σ0) as [Hthrow Hown]; [by right|].
      split; [done|]. intros h' Hrel Hin'. apply Hown; [done|by right]. }
    exists σ', (evsb ++ evsr). split.
    + rewrite (bind_ok _ _ _ _ _ _ Hb). cbn beta.
      unfold fmap in Hrest. by rewrite Hrest.
    + rewrite invocations_app, Hinv.
      rewrite (dispatch_body_invocations _ _ _ _ _ _ Hb).
      by rewrite decide_True.
Qed.

(** C2. Subscribing live handles [S1..SN] in this order puts their
    observations at the end of [_callbacks] in this order; and when the
    live entries of [_callbacks] are [S1..SN], distinct, with callbacks
    that return normally and release none of the others, one [publish x]
    returns normally having invoked exactly [S1], ..., [SN], each once, in
    this order, each with [x]. *)
Theorem fifo_delivery x S :
  (∀ σ0, (∀ h, h ∈ S → expired σ0 (Some h) = false) →
     run_actions (T:=T) (exn:=exn) ((λ h, Subscribe (Some h)) <$> S) σ0 =
       (Ok (), World (heap σ0) (_callbacks σ0 ++ (Some <$> S)), [])) ∧
  (∀ σ, live_entries σ = Some <$> S → NoDup S → considerate code x S →
     ∃ σ' evs, publish code x σ = (Ok (), σ', evs) ∧
               invocations evs = (λ h, (h, x)) <$> S).
Proof.
  split.
  - induction S as [|h S IH]; intros σ0 Hlive; simpl.
    + rewrite app_nil_r. by destruct σ0.
    + assert (subscribe (T:=T) (exn:=exn) (Some h) σ0 =
        (Ok (), World (heap σ0) (_callbacks σ0 ++ [Some h]), [])) as Hsub.
      { unfold subscribe. rewrite Hlive; [done|by left]. }
      rewrite (bind_ok _ _ _ _ _ _ Hsub), IH; simpl.
      * by rewrite <-app_assoc.
      * intros h' Hin. apply (Hlive h'). by right.
  - intros σ Hcbs Hnd Hcons. rewrite publish_eq, Hcbs.
    apply dispatch_considerate; [done| |done].
    intros h Hin. change (live σ (Some h)).
    apply live_entries_live. rewrite Hcbs. by apply list_elem_of_fmap_2.
Qed.

(** ** Counting invocations *)

Lemma dispatch_invoked_count x cbs σ σ' evs h :
  dispatch code x cbs σ = (Ok (), σ', evs) →
  allocated σ h → live σ' (Some h) →
  invoked_count h evs = length (filter (λ w, w = Some h) cbs).
Proof.
  revert σ evs. induction cbs as [|w cbs IH]; intros σ evs; simpl.
  - by intros [= <- <-].
  - intros [(u & σ1 & evsb & evsr & H1 & H2 & ->)|(e & _ & [=])]%bind_inv Ha Hl.
    assert (ages σ σ1 evsb) as Hages1 by by eapply aging_dispatch_body.
    assert (ages σ1 σ' evsr) as Hages2 by by eapply aging_dispatch.
    assert (allocated σ1 h) as Ha1
      by (eapply Nat.lt_le_trans; [exact Ha|by eapply ages_alloc]).
    assert (live σ (Some h)) as Hl0.
    { eapply (ages_live_iff σ σ'); [by eapply ages_trans|done|done]. }
    specialize (IH _ _ H2 Ha1 Hl). unfold invoked_count in *.
    rewrite invocations_app, filter_app, length_app, IH.
    rewrite (dispatch_body_invocations _ _ _ _ _ _ H1).
    destruct w as [h'|].
    + destruct (decide (h' = h)) as [->|Hne].
      * rewrite decide_True by done.
        by rewrite !filter_cons_True by done.
      * rewrite (filter_cons_False _ (Some h')) by congruence.
        destruct (decide _); [|done].
        by rewrite filter_cons_False by done.
    + by rewrite filter_cons_False by done.
Qed.

Lemma filter_live_eq σ h (l : list weak_ptr) :
  live σ (Some h) →
  filter (λ w, w = Some h) (filter (live σ) l) = filter (λ w, w = Some h) l.
Proof.
  intros Hl. induction l as [|w l IH]; [done|].
  destruct (decide (live σ w)) as [Hw|Hw].
  - rewrite (filter_cons_True (live σ)) by done.
    destruct (decide (w = Some h)) as [->|Hne].
    + by rewrite !filter_cons_True, IH by done.
    + by rewrite !(filter_cons_False (λ w, w = Some h)), IH by done.
  - rewrite (filter_cons_False (live σ)) by done.
    rewrite (filter_cons_False (λ w, w = Some h)); [done|].
    by intros ->.
Qed.

Lemma run_actions_occurrences acts σ r σ' evs w :
  Subscribe w ∉ acts → run_actions (T:=T) acts σ = (r, σ', evs) →
  filter (λ w', w' = w) (_callbacks σ') = filter (λ w', w' = w) (_callbacks σ).
Proof.
  revert σ evs. induction acts as [|a acts IH]; intros σ evs Hno; simpl.
  - by intros [= <- <- <-].
  - apply not_elem_of_cons in Hno as [Hne Hno].
    assert (∀ r1 σ1 evs1, run_action (T:=T) a σ = (r1, σ1, evs1) →
      filter (λ w', w' = w) (_callbacks σ1) =
      filter (λ w', w' = w) (_callbacks σ)) as Hact.
    { intros r1 σ1 evs1 H1. destruct a as [h0|h0| |w0|e0]; simpl in H1.
      - unfold release in H1. by destruct (heap σ !! h0) as [c0|];
          [destruct (0 <? owners c0)|]; injection H1 as <- <- <-.
      - unfold retain in H1. by destruct (heap σ !! h0) as [c0|];
          [destruct (0 <? strong c0)|]; injection H1 as <- <- <-.
      - by injection H1 as <- <- <-.
      - unfold subscribe in H1. destruct (negb _);
          injection H1 as <- <- <-; [|done]. simpl.
        rewrite filter_app, filter_cons_False, filter_nil, app_nil_r;
          [done|congruence].
      - by injection H1 as <- <- <-. }
    intros [(u & σ1 & evs1 & evs2 & H1 & H2 & ->)|(e & H1 & ->)]%bind_inv.
    + rewrite (IH _ _ Hno H2). by eapply Hact.
    + by eapply Hact.
Qed.

Lemma dispatch_occurrences x cbs σ r σ' evs w :
  (∀ h σ0, Subscribe w ∉ code h x σ0) →
  dispatch code x cbs σ = (r, σ', evs) →
  filter (λ w', w' = w) (_callbacks σ') = filter (λ w', w' = w) (_callbacks σ).
Proof.
  intros Hno. revert σ evs. induction cbs as [|w0 cbs IH]; intros σ evs; simpl.
  - by intros [= <- <- <-].
  - assert (∀ rb σb evsb, dispatch_body code x w0 σ = (rb, σb, evsb) →
      filter (λ w', w' = w) (_callbacks σb) =
      filter (λ w', w' = w) (_callbacks σ)) as Hbody.
    { intros rb σb evsb
        [(_ & _ & -> & _)|(h & c & σa & evs1 & evs2 & -> & _ & _ & H)]%
        dispatch_body_inv; [done|].
      simpl in H. destruct H as (Hact & Hun & _).
      apply (run_actions_occurrences _ _ _ _ _ w) in Hact; [|by apply Hno].
      simpl in Hact. unfold unlock in Hun. destruct (heap σa !! h);
        by injection Hun as <- <-. }
    intros [(u & σb & evsb & evsr & H1 & H2 & ->)|(e & H1 & ->)]%bind_inv.
    + rewrite (IH _ _ H2). by eapply Hbody.
    + by eapply Hbody.
Qed.

(** C8. Two calls of [subscribe] with observations of one live handle
    append two entries; and a publication that starts with two entries of
    a live handle in [_callbacks], returns normally and leaves the handle
    live has invoked its callback exactly twice, and the two entries are
    still there for the next publication (and no more than two when no
    callback subscribed the handle again). *)
Theorem duplicate_subscription x h :
  (∀ σ0, expired σ0 (Some h) = false →
     run_actions (T:=T) (exn:=exn) [Subscribe (Some h); Subscribe (Some h)] σ0 =
       (Ok (), World (heap σ0) (_callbacks σ0 ++ [Some h; Some h]), [])) ∧
  (∀ σ σ' evs,
     length (filter (λ w, w = Some h) (_callbacks σ)) = 2 →
     expired σ (Some h) = false →
     publish code x σ = (Ok (), σ', evs) →
     expired σ' (Some h) = false →
     invoked_count h evs = 2 ∧
     2 ≤ length (filter (λ w, w = Some h) (_callbacks σ')) ∧
     ((∀ h' σ0, Subscribe (Some h) ∉ code h' x σ0) →
      length (filter (λ w, w = Some h) (_callbacks σ')) = 2)).
Proof.
  split.
  - intros σ0 He. simpl. unfold bind, subscribe, expired, use_count in *.
    simpl in *. rewrite He; simpl. rewrite He; simpl. by rewrite <-app_assoc.
  - intros σ σ' evs Hocc Hl Hpub Hl'. rewrite publish_eq in Hpub.
    assert (length (filter (λ w, w = Some h) (live_entries σ)) = 2) as Hocc'.
    { unfold live_entries. by rewrite filter_live_eq. }
    split_and!.
    + rewrite (dispatch_invoked_count _ _ _ _ _ _ Hpub); [done| |done].
      by apply (live_allocated σ).
    + destruct (appending_dispatch _ _ _ _ _ _ Hpub) as [added Hadd].
      simpl in Hadd. rewrite Hadd, filter_app, length_app. lia.
    + intros Hno.
      by rewrite (dispatch_occurrences _ _ _ _ _ _ _ Hno Hpub).
Qed.

(** ** Subscribing from inside a callback *)

Lemma destroyed_dec evs h : Destroyed h ∈ evs ∨ Destroyed h ∉ evs.
Proof.
  induction evs as [|ev evs [IH|IH]].
  - right. by intros ?%elem_of_nil.
  - left. by right.
  - destruct ev as [w b|h' y|h'].
    + right. by intros [?|?]%elem_of_cons.
    + right. by intros [?|?]%elem_of_cons.
    + destruct (decide (h' = h)) as [->|Hne]; [left; by left|].
      right. intros [?|?]%elem_of_cons; [congruence|done].
Qed.

Lemma dispatch_body_subscribes
    x h σ1 c acts1 n acts2 σa (evsa : list (event T)) rb σb evsb :
  heap σ1 !! h = Some c → 0 < strong c →
  let σL := set_ctrl h (Ctrl (owners c) (S (locks c))) σ1 in
  code h x σL = acts1 ++ Subscribe (Some n) :: acts2 →
  run_actions acts1 σL = (Ok (), σa, evsa) →
  live σa (Some n) →
  dispatch_body code x (Some h) σ1 = (rb, σb, evsb) →
  ∃ k1 k2, _callbacks σb = _callbacks σ1 ++ k1 ++ Some n :: k2.
Proof.
  intros Hc Hs σL Hcode Hacts1 Hln
    [(Hl & _)|(h' & c' & σm & evsm & evsu & [= <-] & Hc' & _ & H)]%
    dispatch_body_inv.
  { exfalso. apply Hl, live_use_count. simpl. by rewrite Hc. }
  rewrite Hc in Hc'. injection Hc' as <-. simpl in H.
  destruct H as (Hact & Hun & _). fold σL in Hact.
  rewrite Hcode, run_actions_app, (bind_ok _ _ _ _ _ _ Hacts1) in Hact.
  cbn beta in Hact. simpl in Hact.
  assert (subscribe (T:=T) (exn:=exn) (Some n) σa =
    (Ok (), World (heap σa) (_callbacks σa ++ [Some n]), [])) as Hsub.
  { unfold subscribe. by rewrite Hln. }
  rewrite (bind_ok _ _ _ _ _ _ Hsub) in Hact.
  destruct (run_actions acts2 _) as [[r3 σ3] evs3] eqn:H3.
  injection Hact as <- <- <-.
  apply appending_run_actions in Hacts1 as [k1 Hk1].
  apply appending_run_actions in H3 as [k2 Hk2]. simpl in Hk1, Hk2.
  exists k1, k2.
  assert (_callbacks σb = _callbacks σ3) as ->.
  { unfold unlock in Hun. by destruct (heap σ3 !! h); injection Hun as <- <-. }
  rewrite Hk2, Hk1. by rewrite <-!app_assoc.
Qed.

(** C3. A callback of the publication in progress calls [subscribe] with
    a live handle that is not in the copy.  Then this publication does not
    invoke the new handle; its observation is in [_callbacks] behind the
    entries of the copy when [publish] returns; and the next publication,
    when it runs to its end and the new handle is live at its start and
    not destroyed before its turn, invokes it. *)
Theorem subscribe_during_dispatch
    x σ pre h post σ1 evs1 c acts1 n acts2 σa (evsa : list (event T)) :
  live_entries σ = pre ++ Some h :: post →
  dispatch code x pre (purged σ) = (Ok (), σ1, evs1) →
  heap σ1 !! h = Some c → 0 < strong c →
  let σL := set_ctrl h (Ctrl (owners c) (S (locks c))) σ1 in
  code h x σL = acts1 ++ Subscribe (Some n) :: acts2 →
  run_actions acts1 σL = (Ok (), σa, evsa) →
  expired σa (Some n) = false →
  Some n ∉ live_entries σ →
  ∀ r σ' evs, publish code x σ = (r, σ', evs) →
    (∀ y, Invoked n y ∉ evs) ∧
    (∃ l1 l2, _callbacks σ' = live_entries σ ++ l1 ++ Some n :: l2) ∧
    (∀ acts ra σn (evsn : list (event T)) y σ'' evs'',
       run_actions acts σ' = (ra, σn, evsn) →
       publish code y σn = (Ok (), σ'', evs'') →
       expired σn (Some n) = false →
       (∀ evs3 evs4, evs'' = evs3 ++ Destroyed n :: evs4 →
                     Invoked n y ∈ evs3) →
       Invoked n y ∈ evs'').
Proof.
  intros Hcbs Hpre Hc Hs σL Hcode Hacts1 Hln Hnew r σ' evs Hpub.
  assert (∃ l1 l2, _callbacks σ' = live_entries σ ++ l1 ++ Some n :: l2)
    as (l1 & l2 & Hl).
  { rewrite publish_eq, Hcbs, dispatch_app in Hpub.
    rewrite (bind_ok _ _ _ _ _ _ Hpre) in Hpub. cbn beta in Hpub.
    destruct (dispatch code x (Some h :: post) σ1) as [[r2 σ2] evs2] eqn:Hrest.
    injection Hpub as <- <- <-.
    apply appending_dispatch in Hpre as [k0 Hk0]. simpl in Hk0.
    simpl in Hrest.
    apply bind_inv in Hrest
      as [(u & σb & evsb & evsr & Hb & Hpost & ->)|(e & Hb & ->)].
    - destruct (dispatch_body_subscribes _ _ _ _ _ _ _ _ _ _ _ _
                  Hc Hs Hcode Hacts1 Hln Hb) as (k1 & k2 & Hk).
      apply appending_dispatch in Hpost as [k3 Hk3].
      exists (k0 ++ k1), (k2 ++ k3). rewrite Hk3, Hk, Hk0.
      by rewrite <-!app_assoc.
    - destruct (dispatch_body_subscribes _ _ _ _ _ _ _ _ _ _ _ _
                  Hc Hs Hcode Hacts1 Hln Hb) as (k1 & k2 & Hk).
      exists (k0 ++ k1), k2. rewrite Hk, Hk0. by rewrite <-!app_assoc. }
  split_and!.
  - intros y Hin. rewrite publish_eq in Hpub.
    by destruct (dispatch_invoked_elem _ _ _ _ _ _ _ _ Hpub Hin).
  - by exists l1, l2.
  - intros acts ra σn evsn y σ'' evs'' Hact Hpub2 Hlive Hturn.
    assert (Some n ∈ live_entries σn) as Hin.
    { apply list_elem_of_filter. split; [done|].
      eapply elem_of_prefix; [|by eapply appending_run_actions].
      rewrite Hl, !elem_of_app. right. right. by left. }
    rewrite publish_eq in Hpub2.
    destruct (dispatch_lock_log _ _ _ _ _ _ Hpub2) as [_ Hlog].
    rewrite <-Hlog in Hin by done.
    apply elem_of_lock_log in Hin as [b Hin].
    apply list_elem_of_split in Hin as (evs3 & evs4 & Heq).
    destruct b.
    + destruct (dispatch_lock_true _ _ _ _ _ _ _ _ _ Hpub2 Heq)
        as (h' & evs5 & [= <-] & ->).
      rewrite Heq, elem_of_app. right. right. by left.
    + pose proof (dispatch_lock_spec _ _ _ _ _ _ Hpub2
        (live_entries_allocated σn) _ _ _ _ Heq) as Hspec.
      destruct (destroyed_dec evs3 n) as [Hd|Hnd].
      * apply list_elem_of_split in Hd as (evs5 & evs6 & ->).
        rewrite <-app_assoc in Heq. simpl in Heq.
        rewrite Heq, elem_of_app. left. by eapply Hturn.
      * exfalso. assert (false = true); [|done]. apply Hspec.
        split; [done|]. by intros ? [= <-].
Qed.

End Properties.

(** * The claims on the demonstration *)

Import Example.

(** A, B and C are subscribed, B releases its callback, and the owner
    publishes [(5, "x")]: A and C are invoked and two subscribers are left. *)
Lemma scenario_release_b :
  session quiet [Act (Release 1); Publish x5] abc =
    (World [Ctrl 1 0; Ctrl 0 0; Ctrl 1 0] [Some 0; Some 2],
     [Destroyed 1; Lock (Some 0) true; Invoked 0 x5;
      Lock (Some 2) true; Invoked 2 x5]).
Proof. reflexivity. Qed.

(** Subscribing the handle of a destroyed listener to an empty publisher. *)
Lemma subscribe_expired_noop_witness :
  expired gone (Some 0) = true ∧
  subscribe (T:=args) (exn:=error) (Some 0) gone = (Ok (), gone, []) ∧
  length (_callbacks (snd (fst (subscribe (T:=args) (exn:=error) (Some 0) gone)))) = 0.
Proof.
  split; [reflexivity|].
  destruct (subscribe_expired_noop (T:=args) (exn:=error) gone (Some 0) eq_refl)
    as [Hsame Hcount].
  split; [exact Hsame|exact (Hcount eq_refl)].
Defined.

(** B releases its callback between two publications. *)
Lemma purge_removes_expired_witness :
  (∃ σ1, release (T:=args) (exn:=error) 1 abc = (Ok (), σ1, [Destroyed 1]) ∧
     _callbacks σ1 = _callbacks abc ∧
     expired σ1 (Some 1) = true ∧
     (Some 1 ∉ _callbacks (purged σ1)) ∧
     (∀ x r σ' evs, publish quiet x σ1 = (r, σ', evs) →
        (∀ y, Invoked 1 y ∉ evs) ∧ Some 1 ∉ _callbacks σ')) ∧
  publish quiet x5
    (World [Ctrl 1 0; Ctrl 0 0; Ctrl 1 0] [Some 0; Some 1; Some 2]) =
    (Ok (), World [Ctrl 1 0; Ctrl 0 0; Ctrl 1 0] [Some 0; Some 2],
     [Lock (Some 0) true; Invoked 0 x5; Lock (Some 2) true; Invoked 2 x5]) ∧
  ∃ added, [Some 0; Some 2] = [Some 0; Some 2] ++ added.
Proof.
  destruct (purge_removes_expired quiet
              (World [Ctrl 1 0; Ctrl 0 0; Ctrl 1 0] [Some 0; Some 1; Some 2]))
    as (_ & _ & _ & Hpub & _).
  destruct (Hpub x5 _ _ _ eq_refl) as (_ & added & Hadded & _).
  split_and!.
  - exact (proj2 (proj2 (proj2 (proj2 (purge_removes_expired quiet abc))))
             1 (Ctrl 1 0) eq_refl eq_refl eq_refl).
  - reflexivity.
  - exists added. exact Hadded.
Defined.



(** The first of two callbacks raises. *)
Lemma callback_error_propagates_witness :
  (∃ σ' evs, publish faulty x5 two = (Raise "bad", σ', evs) ∧
     lock_log evs = [] ++ [Some 0] ∧
     invocations evs = invocations [] ++ [(0, x5)]) ∧
  (∀ w σ0, ∃ σ2, subscribe (T:=args) (exn:=error) w σ0 = (Ok (), σ2, [])) ∧
  (∀ σ0, ∃ σ2, purge (T:=args) (exn:=error) σ0 = (Ok (), σ2, [])).
Proof.
  exact (callback_error_propagates faulty x5 two [] 0 [Some 1] two []
           two_locked [Lock (Some 0) true] "bad" two_locked [Invoked 0 x5]
           eq_refl eq_refl eq_refl eq_refl).
Defined.

(** Three self-deleting clients: each is invoked, in order, and destroyed
    when its own invocation is over; none of them is invoked afterwards. *)
Lemma self_destruction_safety_witness :
  publish client x5 abc = (Ok (), abc_done, abc_log) ∧
  lock_log abc_log `prefix_of` live_entries abc ∧
  lock_log abc_log = live_entries abc ∧
  (∀ evs1 w b evs2, abc_log = evs1 ++ Lock w b :: evs2 →
     ∃ h, w = Some h ∧
          (b = true ↔ Destroyed h ∉ evs1) ∧
          (b = true → ∃ evs3, evs2 = Invoked h x5 :: evs3)) ∧
  (∀ h y, never_after (Destroyed h) (Invoked h y) abc_log) ∧
  (∀ h, Destroyed h ∈ abc_log →
     expired abc_done (Some h) = true ∧
     ∀ ops σ'' evs' y, session client ops abc_done = (σ'', evs') →
                       Invoked h y ∉ evs').
Proof.
  destruct (self_destruction_safety client x5 abc (Ok ()) abc_done abc_log
              eq_refl) as (Hpre & Hall & Hturn & Hafter & Hlater).
  split_and!; [reflexivity|exact Hpre|exact (Hall eq_refl)|exact Hturn
              |exact Hafter|exact Hlater].
Defined.

(** The callback of A deletes its listener: the handle stays live up to the
    end of the invocation and is destroyed there, before B is reached. *)
Lemma callback_kept_alive_witness :
  publish client x5 abc = (Ok (), abc_done, abc_log) ∧
  lock (T:=args) (exn:=error) (Some 0) abc =
    (Ok (Some 0), abc_locked, [Lock (Some 0) true]) ∧
  (∀ acts1 acts2 r1 σm (evsm : list (event args)),
     client 0 x5 abc_locked = acts1 ++ acts2 →
     run_actions acts1 abc_locked = (r1, σm, evsm) →
     ∃ cm, heap σm !! 0 = Some cm ∧ locks cm = 1 ∧
       expired σm (Some 0) = false ∧
       (Destroyed 0 ∉ evsm)) ∧
  ∃ c1, heap abc_released !! 0 = Some c1 ∧ locks c1 = 1 ∧
    dispatch_body client x5 (Some 0) abc =
      (Ok (), set_ctrl 0 (Ctrl (owners c1) 0) abc_released,
       Lock (Some 0) true :: Invoked 0 x5 :: [] ++
       (if owners c1 + 0 =? 0 then [Destroyed 0] else [])) ∧
    publish client x5 abc =
      (let '(r, σ', evs2) :=
         dispatch client x5 [Some 1; Some 2]
           (set_ctrl 0 (Ctrl (owners c1) 0) abc_released) in
       (r, σ',
        [] ++ Lock (Some 0) true :: Invoked 0 x5 :: [] ++
        (if owners c1 + 0 =? 0 then [Destroyed 0] else []) ++ evs2)).
Proof.
  split; [reflexivity|].
  exact (callback_kept_alive client x5 abc [] 0 [Some 1; Some 2] abc []
           (Ctrl 1 0) (Ok ()) abc_released []
           eq_refl eq_refl eq_refl (Nat.lt_0_succ 0) eq_refl).
Defined.

(** The entries of three self-deleting clients after their publication. *)
Lemma callbacks_mutation_paths_witness :
  publish client x5 abc = (Ok (), abc_done, abc_log) ∧
  _callbacks abc_done =
    filter (λ w, expired abc w = false) (_callbacks abc) ∧
  Some 0 ∈ _callbacks abc_done ∧
  ∀ (acts : list (action error)) r2 σ2 (evs2 : list (event args)),
    run_actions acts abc_done = (r2, σ2, evs2) →
    Some 0 ∈ _callbacks σ2 ∧ (Some 0 ∉ _callbacks (purged σ2)) ∧
    ∀ y r3 σ3 evs3,
      publish client y σ2 = (r3, σ3, evs3) →
      (Some 0 ∉ _callbacks σ3) ∧ ∀ y', Invoked 0 y' ∉ evs3.
Proof.
  destruct (callbacks_mutation_paths client) as (_ & _ & _ & Hpub & Hlazy).
  split; [reflexivity|]. split.
  - apply (proj2 (Hpub x5 abc (Ok ()) abc_done abc_log eq_refl)).
    intros h σ0 w Hin. apply list_elem_of_singleton in Hin. discriminate.
  - refine (Hlazy x5 abc (Ok ()) abc_done abc_log 0 eq_refl _ eq_refl).
    apply list_elem_of_here.
Defined.

(** A, B and C subscribe in this order and receive one publication. *)
Lemma fifo_delivery_witness :
  run_actions (T:=args) (exn:=error)
    [Subscribe (Some 0); Subscribe (Some 1); Subscribe (Some 2)] unsubscribed =
    (Ok (), abc, []) ∧
  ∃ σ' evs, publish client x5 abc = (Ok (), σ', evs) ∧
            invocations evs = [(0, x5); (1, x5); (2, x5)].
Proof.
  destruct (fifo_delivery client x5 [0; 1; 2]) as [Hsub Hpub]. split.
  - apply (Hsub unsubscribed). intros h Hin.
    repeat (apply elem_of_cons in Hin as [->|Hin]; [reflexivity|]).
    by apply elem_of_nil in Hin.
  - apply (Hpub abc); [reflexivity| |].
    + repeat (apply NoDup_cons; split;
              [intros Hin;
               repeat (apply elem_of_cons in Hin as [Hin|Hin]; [discriminate|]);
               by apply elem_of_nil in Hin|]).
      apply NoDup_nil_2.
    + intros h σ Hin. split.
      * intros e Hthrow. by apply list_elem_of_singleton in Hthrow.
      * intros h' Hrel _. apply list_elem_of_singleton in Hrel.
        by injection Hrel.
Defined.

(** One listener subscribes twice. *)
Lemma duplicate_subscription_witness :
  run_actions (T:=args) (exn:=error)
    [Subscribe (Some 0); Subscribe (Some 0)] one = (Ok (), twice, []) ∧
  publish quiet x5 twice = (Ok (), twice, twice_log) ∧
  invoked_count 0 twice_log = 2 ∧
  2 ≤ length (filter (λ w, w = Some 0) (_callbacks twice)) ∧
  length (filter (λ w, w = Some 0) (_callbacks twice)) = 2.
Proof.
  destruct (duplicate_subscription quiet x5 0) as [Hsub Hpub].
  split; [exact (Hsub one eq_refl)|]. split; [reflexivity|].
  destruct (Hpub twice twice twice_log eq_refl eq_refl eq_refl eq_refl)
    as (Hcount & Hstay & Hsame).
  split_and!; [exact Hcount|exact Hstay|].
  apply Hsame. intros h' σ0 Hin. by apply elem_of_nil in Hin.
Defined.

(** The callback of handle 0 enrols a new client while it is invoked: the
    new client misses this publication and receives the next. *)
Lemma subscribe_during_dispatch_witness :
  publish recruiter x5 two = (Ok (), three, two_log) ∧
  publish recruiter y6 three = (Ok (), four, three_log) ∧
  (∀ y, Invoked 2 y ∉ two_log) ∧
  (∃ l1 l2, _callbacks three = live_entries two ++ l1 ++ Some 2 :: l2) ∧
  Invoked 2 y6 ∈ three_log.
Proof.
  split; [reflexivity|]. split; [reflexivity|].
  assert (Some 2 ∉ live_entries two) as Hnew.
  { intros Hin.
    repeat (apply elem_of_cons in Hin as [Hin|Hin]; [discriminate|]).
    by apply elem_of_nil in Hin. }
  destruct (subscribe_during_dispatch recruiter x5 two [] 0 [Some 1] two []
              (Ctrl 1 0) [MakeCallback] 2 [] two_made []
              eq_refl eq_refl eq_refl (Nat.lt_0_succ 0) eq_refl eq_refl eq_refl
              Hnew (Ok ()) three two_log eq_refl)
    as (Hnot & Hin & Hnext).
  split_and!; [exact Hnot|exact Hin|].
  apply (Hnext [] (Ok ()) three [] y6 four three_log eq_refl eq_refl eq_refl).
  intros evs3 evs4 Heq. exfalso.
  assert (Destroyed 2 ∈ three_log) as Hd.
  { rewrite Heq. apply elem_of_app. right. apply list_elem_of_here. }
  repeat (apply elem_of_cons in Hd as [Hd|Hd]; [discriminate|]).
  by apply elem_of_nil in Hd.
Defined.

(** * Further properties of the publisher *)

Section Further.

Context {T exn : Type}.
Context (code : handle → T → world → list (action exn)).
Implicit Types (σ : world) (h : handle) (w : weak_ptr) (c : ctrl).
Implicit Types (evs : list (event T)) (acts : list (action exn)).

(** ** The temporary strong reference *)

Lemma unlock_lookup h0 σ (r : result exn ()) σ' evs h c :
  unlock h0 σ = (r, σ', evs) → heap σ !! h = Some c →
  ∃ c', heap σ' !! h = Some c' ∧ owners c' = owners c ∧
        locks c' = if decide (h0 = h) then pred (locks c) else locks c.
Proof.
  unfold unlock. intros Hun Hc.
  assert (h < length (heap σ)) as Hlt by by eapply lookup_lt_Some.
  destruct (decide (h0 = h)) as [->|Hne].
  - rewrite Hc in Hun. injection Hun as _ <- _. simpl.
    rewrite list_lookup_insert_eq by done. by eexists.
  - destruct (heap σ !! h0) as [c0|]; injection Hun as _ <- _; simpl.
    + rewrite list_lookup_insert_ne by done. by exists c.
    + by exists c.
Qed.

Lemma dispatch_body_locks x w σ r σ' evs h c :
  dispatch_body code x w σ = (r, σ', evs) → heap σ !! h = Some c →
  ∃ c', heap σ' !! h = Some c' ∧ locks c' = locks c.
Proof.
  intros [(_ & _ & -> & _)|(h0 & c0 & σ1 & evs1 & evs2 & -> & Hc0 & _ & H)]%
    dispatch_body_inv Hc; [by exists c|].
  simpl in H. destruct H as (Hact & Hun & _).
  assert (h < length (heap σ)) as Hlt by by eapply lookup_lt_Some.
  destruct (decide (h0 = h)) as [->|Hne].
  - rewrite Hc in Hc0. injection Hc0 as <-.
    destruct (run_actions_locks _ _ _ _ _ h (Ctrl (owners c) (S (locks c))) Hact)
      as [(c1 & Hc1 & Hl1) _].
    { simpl. by apply list_lookup_insert_eq. }
    destruct (unlock_lookup _ _ _ _ _ _ _ Hun Hc1) as (c' & Hc' & _ & Hl').
    exists c'. split; [done|]. rewrite Hl', decide_True, Hl1 by done. done.
  - destruct (run_actions_locks _ _ _ _ _ h c Hact) as [(c1 & Hc1 & Hl1) _].
    { simpl. by rewrite list_lookup_insert_ne. }
    destruct (unlock_lookup _ _ _ _ _ _ _ Hun Hc1) as (c' & Hc' & _ & Hl').
    exists c'. split; [done|]. rewrite Hl', decide_False, Hl1 by done. done.
Qed.

Lemma dispatch_locks x cbs σ r σ' evs h c :
  dispatch code x cbs σ = (r, σ', evs) → heap σ !! h = Some c →
  ∃ c', heap σ' !! h = Some c' ∧ locks c' = locks c.
Proof.
  revert σ evs c. induction cbs as [|w cbs IH]; intros σ evs c; simpl.
  - intros [= <- <- <-] Hc. by exists c.
  - intros [(u & σ1 & evs1 & evs2 & H1 & H2 & ->)|(e & H1 & ->)]%bind_inv Hc.
    + destruct (dispatch_body_locks _ _ _ _ _ _ _ _ H1 Hc) as (c1 & Hc1 & Hl1).
      destruct (IH _ _ _ H2 Hc1) as (c2 & Hc2 & Hl2).
      exists c2. split; [done|congruence].
    + by eapply dispatch_body_locks.
Qed.

(** X3. Every temporary strong reference [publish] takes is given back,
    also when a callback raises: after the call each handle has as many
    publisher-held references as before it. *)
Theorem publish_locks_balanced x σ r σ' evs h c :
  publish code x σ = (r, σ', evs) → heap σ !! h = Some c →
  ∃ c', heap σ' !! h = Some c' ∧ locks c' = locks c.
Proof.
  rewrite publish_eq. intros Hrun Hc. by eapply dispatch_locks.
Qed.

(** ** Callbacks that release nothing *)

Lemma run_action_owners (a : action exn) σ r σ' evs h c :
  run_action (T:=T) a σ = (r, σ', evs) → a ≠ Release h →
  heap σ !! h = Some c →
  ∃ c', heap σ' !! h = Some c' ∧ owners c ≤ owners c'.
Proof.
  intros Hrun Hne Hc.
  assert (h < length (heap σ)) as Hlt by by eapply lookup_lt_Some.
  destruct a as [h0|h0| |w|e]; simpl in Hrun.
  - assert (h0 ≠ h) as Hh by congruence.
    unfold release in Hrun. destruct (heap σ !! h0) as [c0|];
      [destruct (0 <? owners c0)|]; injection Hrun as <- <- <-;
      try by exists c.
    simpl. rewrite list_lookup_insert_ne by done. by exists c.
  - unfold retain in Hrun. destruct (heap σ !! h0) as [c0|] eqn:Hc0;
      [destruct (0 <? strong c0)|]; injection Hrun as <- <- <-;
      try by exists c.
    simpl. destruct (decide (h0 = h)) as [->|Hh].
    + rewrite list_lookup_insert_eq by done. simplify_eq.
      eexists. split; [done|]. simpl. lia.
    + rewrite list_lookup_insert_ne by done. by exists c.
  - injection Hrun as <- <- <-. simpl. rewrite lookup_app_l by done.
    by exists c.
  - unfold subscribe in Hrun. destruct (negb _); injection Hrun as <- <- <-;
      by exists c.
  - injection Hrun as <- <- <-. by exists c.
Qed.

Lemma run_actions_owners acts σ r σ' evs h c :
  run_actions (T:=T) acts σ = (r, σ', evs) → Release h ∉ acts →
  heap σ !! h = Some c →
  ∃ c', heap σ' !! h = Some c' ∧ owners c ≤ owners c'.
Proof.
  revert σ evs c. induction acts as [|a acts IH]; intros σ evs c; simpl.
  - intros [= <- <- <-] _ Hc. by exists c.
  - intros Hrun [Hne Hno]%not_elem_of_cons Hc.
    apply bind_inv in Hrun
      as [(u & σ1 & evs1 & evs2 & H1 & H2 & ->)|(e & H1 & ->)].
    + destruct (run_action_owners _ _ _ _ _ h c H1) as (c1 & Hc1 & Ho1);
        [congruence|done|].
      destruct (IH _ _ _ H2 Hno Hc1) as (c2 & Hc2 & Ho2).
      exists c2. split; [done|lia].
    + eapply run_action_owners; [done|congruence|done].
Qed.

Lemma dispatch_body_no_release x w σ r σ' evs :
  (∀ h σ0 h', Release h' ∉ code h x σ0) →
  dispatch_body code x w σ = (r, σ', evs) → ∀ h, Destroyed h ∉ evs.
Proof.
  intros Hno
    [(_ & _ & _ & ->)|(h0 & c0 & σ1 & evs1 & evs2 & -> & Hc0 & Hs & H)]%
    dispatch_body_inv h Hin.
  { by apply list_elem_of_singleton in Hin. }
  simpl in H. destruct H as (Hact & Hun & ->).
  apply elem_of_cons in Hin as [?|Hin]; [done|].
  apply elem_of_cons in Hin as [?|Hin]; [done|].
  apply elem_of_app in Hin as [Hin|Hin].
  { eapply Hno. by eapply run_actions_destroyed. }
  assert (h0 < length (heap σ)) as Hlt by by eapply lookup_lt_Some.
  set (cL := Ctrl (owners c0) (S (locks c0))) in *.
  assert (heap (set_ctrl h0 cL σ) !! h0 = Some cL) as HcL
    by by apply list_lookup_insert_eq.
  destruct (run_actions_locks _ _ _ _ _ h0 cL Hact HcL)
    as [(c1 & Hc1 & Hl1) _].
  destruct (run_actions_owners _ _ _ _ _ h0 cL Hact (Hno _ _ _) HcL)
    as (c1' & Hc1' & Ho1).
  rewrite Hc1 in Hc1'. injection Hc1' as <-.
  unfold unlock in Hun. rewrite Hc1 in Hun.
  destruct (strong _ =? 0) eqn:Hz; injection Hun as _ <-;
    [|by apply elem_of_nil in Hin].
  apply Nat.eqb_eq in Hz. unfold strong in *. simpl in *. lia.
Qed.

(** X4. The publisher never destroys a handle by itself: when no callback
    releases a reference, a publication logs no destruction, and every
    handle that was live before it is live after it. *)
Theorem publisher_never_destroys x σ r σ' evs :
  (∀ h σ0 h', Release h' ∉ code h x σ0) →
  publish code x σ = (r, σ', evs) →
  (∀ h, Destroyed h ∉ evs) ∧
  (∀ h, expired σ (Some h) = false → expired σ' (Some h) = false).
Proof.
  intros Hno. rewrite publish_eq. intros Hrun.
  assert (∀ h, Destroyed h ∉ evs) as Hnone.
  { clear -Hno Hrun. revert evs Hrun. generalize (purged σ).
    induction (live_entries σ) as [|w cbs IH]; intros σ0 evs; simpl.
    - intros [= <- <- <-] h. by intros ?%elem_of_nil.
    - intros [(u & σ1 & evs1 & evs2 & H1 & H2 & ->)|(e & H1 & ->)]%bind_inv h.
      + apply not_elem_of_app. split.
        * by eapply dispatch_body_no_release.
        * by eapply IH.
      + by eapply dispatch_body_no_release. }
  split; [done|]. intros h Hl.
  apply (ages_live_iff (purged σ) σ' evs);
    [by eapply aging_dispatch|by apply (live_allocated σ)|].
  split; [done|apply Hnone].
Qed.

(** ** Order of delivery, whatever the callbacks do *)

Lemma dispatch_invocations_sublist x cbs σ r σ' evs :
  dispatch code x cbs σ = (r, σ', evs) →
  ((λ p : handle * T, Some p.1) <$> invocations evs) `sublist_of` cbs.
Proof.
  revert σ evs. induction cbs as [|w cbs IH]; intros σ evs; simpl.
  - by intros [= <- <- <-].
  - assert (∀ rb σb evsb tl, dispatch_body code x w σ = (rb, σb, evsb) →
      tl `sublist_of` cbs →
      (((λ p : handle * T, Some p.1) <$> invocations evsb) ++ tl)
        `sublist_of` w :: cbs) as Hbody.
    { intros rb σb evsb tl Hb Htl.
      rewrite (dispatch_body_invocations _ _ _ _ _ _ _ Hb).
      destruct w as [h|]; [destruct (decide _)|]; simpl;
        by constructor. }
    intros [(u & σ1 & evs1 & evs2 & H1 & H2 & ->)|(e & H1 & ->)]%bind_inv.
    + rewrite invocations_app, fmap_app. eapply Hbody; [done|by eapply IH].
    + rewrite <-(app_nil_r (_ <$> _)). eapply Hbody; [done|].
      apply sublist_nil_l.
Qed.

(** X5. Whatever the callbacks do (release, subscribe, raise), the handles
    a publication invokes are, in the order of invocation, a subsequence
    of the entries that were live when it started, each receives exactly
    the published arguments, and there are no more invocations than
    entries in [_callbacks] at the start. *)
Theorem publish_invokes_in_order x σ r σ' evs :
  publish code x σ = (r, σ', evs) →
  ((λ p : handle * T, Some p.1) <$> invocations evs)
    `sublist_of` live_entries σ ∧
  (∀ p, p ∈ invocations evs → p.2 = x) ∧
  length (invocations evs) ≤ length (_callbacks σ).
Proof.
  rewrite publish_eq. intros Hrun.
  pose proof (dispatch_invocations_sublist _ _ _ _ _ _ Hrun) as Hsub.
  split_and!; [done| |].
  - intros [h y] Hin%elem_of_invocations. simpl.
    by destruct (dispatch_invoked_elem _ _ _ _ _ _ _ _ _ Hrun Hin).
  - apply sublist_length in Hsub. rewrite length_fmap in Hsub.
    etrans; [exact Hsub|]. apply length_filter.
Qed.

(** ** No live subscriber *)

Lemma publish_all_expired x σ :
  (∀ w, w ∈ _callbacks σ → expired σ w = true) →
  publish code x σ = (Ok (), World (heap σ) [], []).
Proof.
  intros Hall. rewrite publish_eq. unfold purged.
  assert (live_entries σ = []) as ->; [|done].
  apply elem_of_nil_inv. intros w [Hl Hin]%list_elem_of_filter.
  unfold live in Hl. rewrite (Hall w Hin) in Hl. done.
Qed.

(** X6. When every entry of [_callbacks] is expired (in particular when
    there is none), [publish] returns normally, invokes nothing, leaves
    the handles as they are and empties [_callbacks]. *)
Theorem publish_without_live_subscribers x σ :
  (∀ w, w ∈ _callbacks σ → expired σ w = true) →
  publish code x σ = (Ok (), World (heap σ) [], []).
Proof. apply publish_all_expired. Qed.

End Further.

(** * Building callbacks *)

Section Binding.

Import std_impl detail.

Lemma _Build_index_tuple_seq n : _Build_index_tuple n = seq 0 n.
Proof.
  induction n as [|n IH]; [done|]. cbn [_Build_index_tuple]. unfold __next.
  by rewrite IH, length_seq, seq_S.
Qed.

Lemma to_int_small i : (0 ≤ i < 2 ^ 31)%Z → to_int i = i.
Proof.
  intros [Hlo Hhi]. unfold to_int. rewrite Z.mod_small by lia.
  by apply Z.ltb_lt in Hhi as ->.
Qed.

Lemma make_integer_sequence_small n :
  (Z.of_nat n < 2 ^ 31)%Z →
  make_integer_sequence (Z.of_nat n) = Some (Z.of_nat <$> seq 0 n).
Proof.
  intros Hn. unfold make_integer_sequence.
  assert ((0 <=? Z.of_nat n)%Z = true) as -> by (apply Z.leb_le; lia).
  rewrite Nat2Z.id, _Build_index_tuple_seq. f_equal.
  apply list_fmap_ext. intros i j [-> Hlt]%lookup_seq.
  apply to_int_small. lia.
Qed.

(** X1. [_Build_index_tuple<N>] is the tuple [0, 1, ..., N-1];
    [make_integer_sequence<int, N>] is the same sequence, of [size()] [N],
    for every length that an [int] holds, and is rejected for a negative
    length. *)
Theorem make_integer_sequence_counts (n : nat) :
  _Build_index_tuple n = seq 0 n ∧
  ((Z.of_nat n < 2 ^ 31)%Z →
   ∃ s, make_integer_sequence (Z.of_nat n) = Some s ∧
        s = Z.of_nat <$> seq 0 n ∧ size s = n) ∧
  (∀ z, (z < 0)%Z → make_integer_sequence z = None).
Proof.
  split_and!.
  - apply _Build_index_tuple_seq.
  - intros Hn. eexists. split_and!; [by apply make_integer_sequence_small|done|].
    unfold size. by rewrite length_fmap, length_seq.
  - intros z Hz. unfold make_integer_sequence.
    by assert ((0 <=? z)%Z = false) as -> by (apply Z.leb_gt; lia).
Qed.

Context {V R : Type}.

(** The placeholders [placeholder<Indices+1>] over the indices [0..n-1]
    pick the first [n] actual arguments, in order. *)
Lemma placeholders_pick (n : nat) (actual : list V) :
  let pick := λ b : bound_arg V,
    let k := is_placeholder b in
    if (0 <? k)%Z then actual !! Z.to_nat (k - 1)
    else match b with
         | Stored v => Some v
         | placeholder _ => None
         end in
  let bound := (λ i, placeholder (i + 1)) <$> (Z.of_nat <$> seq 0 n) in
  (n ≤ length actual → mapM pick bound = Some (take n actual)) ∧
  (length actual < n → mapM pick bound = None).
Proof.
  intros pick bound.
  assert (∀ i : nat, pick (placeholder (Z.of_nat i + 1)) = actual !! i) as Hpick.
  { intros i. unfold pick. simpl.
    assert ((0 <? Z.of_nat i + 1)%Z = true) as -> by (apply Z.ltb_lt; lia).
    f_equal. lia. }
  split.
  - intros Hlen. apply mapM_Some_2. unfold bound.
    rewrite !Forall2_fmap_l. apply Forall2_same_length_lookup_2.
    + by rewrite length_seq, length_take_le.
    + intros i j v [-> Hlt]%lookup_seq [Hv _]%lookup_take_Some. simpl.
      by rewrite Hpick.
  - intros Hlen. apply mapM_None_2. unfold bound.
    apply Exists_exists. exists (placeholder (Z.of_nat (length actual) + 1)).
    split.
    + apply list_elem_of_fmap. exists (Z.of_nat (length actual)).
      split; [done|]. apply list_elem_of_fmap_2, elem_of_seq. lia.
    + rewrite Hpick. by apply lookup_ge_None_2.
Qed.

(** X2. The callable [bind_impl] makes for a function of [n] parameters
    forwards its arguments: called with at least [n] arguments it calls
    the member function on the bound receiver with the first [n] of them,
    in order and unchanged (the free function overload: the function on
    these arguments), and a call with fewer arguments is ill-formed. *)
Theorem bind_impl_forwards (n : nat) (f : list V → R) (obj : V) :
  (Z.of_nat n < 2 ^ 31)%Z →
  (∃ g, bind_impl n f obj = Some g ∧
     (∀ actual, n ≤ length actual →
                g actual = Some (f (obj :: take n actual))) ∧
     (∀ actual, length actual < n → g actual = None)) ∧
  (∃ g, bind_impl_free n f = Some g ∧
     (∀ actual, n ≤ length actual → g actual = Some (f (take n actual))) ∧
     (∀ actual, length actual < n → g actual = None)).
Proof.
  intros Hn. unfold bind_impl, bind_impl_free.
  assert ((Z.of_nat n <? 2 ^ 31)%Z = true) as -> by by apply Z.ltb_lt.
  rewrite make_integer_sequence_small by done. simpl.
  split; eexists; (split; [done|]); split; intros actual Hlen;
    unfold bind_impl_indices, bind_impl_free_indices, std_bind;
    pose proof (placeholders_pick n actual) as Hpick; cbv zeta in Hpick;
    destruct Hpick as [Hsome Hnone]; simpl.
  - by rewrite Hsome.
  - by rewrite Hnone.
  - by rewrite Hsome.
  - by rewrite Hnone.
Qed.

End Binding.

(** * The demonstration: clients that delete themselves *)

Section Clients.

Import Example ExampleClasses.

Lemma Client_registers σ :
  Client Primary_subscribe σ =
    (Ok (), World (heap σ ++ [Ctrl 1 0])
                  (_callbacks σ ++ [Some (length (heap σ))]), []).
Proof.
  unfold Client, Primary_subscribe, bind, make_callback, subscribe.
  unfold expired, use_count. simpl.
  by rewrite lookup_app_r, Nat.sub_diag.
Qed.

Lemma clients_crowd n k : clients n (crowd k) = (Ok (), crowd (k + n), []).
Proof.
  revert k. induction n as [|n IH]; intros k.
  - by rewrite Nat.add_0_r.
  - cbn [clients]. rewrite (bind_ok _ _ _ _ _ _ (Client_registers (crowd k))).
    unfold crowd at 1 2 3. simpl heap. simpl _callbacks.
    rewrite length_replicate, <-replicate_S_end.
    replace ((Some <$> seq 0 k) ++ [Some k]) with (Some <$> seq 0 (S k))
      by by rewrite seq_S, fmap_app.
    fold (crowd (S k)). rewrite IH. by rewrite Nat.add_succ_r.
Qed.

Lemma dispatch_body_client x h σ :
  heap σ !! h = Some (Ctrl 1 0) →
  dispatch_body client x (Some h) σ =
    (Ok (), set_ctrl h (Ctrl 0 0) σ,
     [Lock (Some h) true; Invoked h x; Destroyed h]).
Proof.
  intros Hc.
  assert (h < length (heap σ)) as Hlt by by eapply lookup_lt_Some.
  set (σL := set_ctrl h (Ctrl 1 1) σ).
  set (σ1 := set_ctrl h (Ctrl 0 1) σL).
  assert (lock (T:=args) (exn:=error) (Some h) σ =
          (Ok (Some h), σL, [Lock (Some h) true])) as Hlock.
  { unfold lock. by rewrite Hc. }
  assert (run_actions (T:=args) (exn:=error) [Release h] σL =
          (Ok (), σ1, [])) as Hrun.
  { simpl. unfold bind, release. simpl.
    by rewrite list_lookup_insert_eq. }
  assert (unlock (T:=args) (exn:=error) h σ1 =
          (Ok (), set_ctrl h (Ctrl 0 0) σ1, [Destroyed h])) as Hun.
  { unfold unlock. simpl.
    by rewrite list_lookup_insert_eq by (by rewrite length_insert). }
  unfold dispatch_body. rewrite (bind_ok _ _ _ _ _ _ Hlock).
  unfold scoped, call.
  rewrite (bind_ok _ _ σL () σL [Invoked h x]) by done.
  unfold client. rewrite Hrun, Hun. unfold σ1, σL, set_ctrl. simpl.
  by rewrite !list_insert_insert_eq.
Qed.

Lemma dispatch_crowd x m k cbs :
  dispatch client x (Some <$> seq k m)
    (World (replicate k (Ctrl 0 0) ++ replicate m (Ctrl 1 0)) cbs) =
  (Ok (), World (replicate (k + m) (Ctrl 0 0)) cbs,
   seq k m ≫= λ h, [Lock (Some h) true; Invoked h x; Destroyed h]).
Proof.
  revert k. induction m as [|m IH]; intros k.
  - by rewrite Nat.add_0_r, app_nil_r.
  - cbn [seq fmap list_fmap dispatch].
    set (σ := World _ cbs).
    assert (heap σ !! k = Some (Ctrl 1 0)) as Hk.
    { simpl. rewrite lookup_app_r by by rewrite length_replicate.
      by rewrite length_replicate, Nat.sub_diag. }
    rewrite (bind_ok _ _ _ _ _ _ (dispatch_body_client x k σ Hk)).
    unfold σ, set_ctrl. simpl heap. simpl _callbacks.
    rewrite insert_app_r_alt by by rewrite length_replicate.
    rewrite length_replicate, Nat.sub_diag. simpl.
    rewrite (cons_middle (Ctrl 0 0)), app_assoc, <-replicate_S_end.
    change (list_fmap _ _ Some (seq (S k) m)) with (Some <$> seq (S k) m).
    rewrite IH. by rewrite Nat.add_succ_r.
Qed.

(** X7. The life of the demonstration's clients, for any number [n] of
    them.  Constructing a [Client] registers it in any state of the
    [Primary]: one new handle, one new entry at the end.  [n] clients
    constructed on a new [Primary] are its [n] subscribers in order of
    construction; the first [doSomething] invokes each of them once, in
    that order, each with the published pair, and each is destroyed as
    its own invocation ends; any later [doSomething] invokes none of them
    and leaves the [Primary] without subscribers. *)
Theorem clients_lifecycle (n : nat) (a : Z) (b : string) :
  (∀ σ, Client Primary_subscribe σ =
          (Ok (), World (heap σ ++ [Ctrl 1 0])
                        (_callbacks σ ++ [Some (length (heap σ))]), [])) ∧
  clients n Primary = (Ok (), crowd n, []) ∧
  doSomething a b (crowd n) =
    (Ok (), departed n,
     seq 0 n ≫= λ h, [Lock (Some h) true; Invoked h (a, b); Destroyed h]) ∧
  (∀ a' b', doSomething a' b' (departed n) =
              (Ok (), World (replicate n (Ctrl 0 0)) [], [])).
Proof.
  split_and!.
  - apply Client_registers.
  - apply (clients_crowd n 0).
  - unfold doSomething. rewrite publish_eq.
    assert (live_entries (crowd n) = Some <$> seq 0 n) as Hlive.
    { assert (∀ l : list handle, (∀ h, h ∈ l → h < n) →
        filter (live (crowd n)) (Some <$> l) = Some <$> l) as Hfil.
      { intros l Hlt. induction l as [|h l IH]; [done|]. rewrite fmap_cons.
        rewrite filter_cons_True; [f_equal; apply IH|].
        - intros h' Hin. apply Hlt. by right.
        - apply live_use_count. simpl.
          rewrite lookup_replicate_2 by (apply Hlt; by left).
          unfold strong. simpl. lia. }
      apply Hfil. intros h ?%elem_of_seq. lia. }
    unfold purged. rewrite Hlive.
    apply (dispatch_crowd (a, b) n 0 (Some <$> seq 0 n)).
  - intros a' b'. unfold doSomething.
    rewrite publish_all_expired; [done|].
    intros w [h [-> Hin]]%list_elem_of_fmap. apply elem_of_seq in Hin.
    apply expired_use_count. simpl.
    by rewrite lookup_replicate_2 by lia.
Qed.

End Clients.

(** * The further properties on examples *)

(** A member function of two parameters bound to the receiver 7. *)
Lemma bind_impl_forwards_witness :
  (∃ g, detail.bind_impl 2 (λ l : list nat, l) 7 = Some g ∧
     (∀ actual, 2 ≤ length actual → g actual = Some (7 :: take 2 actual)) ∧
     (∀ actual, length actual < 2 → g actual = None)) ∧
  (∃ g, detail.bind_impl_free 2 (λ l : list nat, l) = Some g ∧
     (∀ actual, 2 ≤ length actual → g actual = Some (take 2 actual)) ∧
     (∀ actual, length actual < 2 → g actual = None)).
Proof.
  exact (bind_impl_forwards 2 (λ l : list nat, l) 7 eq_refl).
Defined.

(** The first of two callbacks raises: no temporary reference is left. *)
Lemma publish_locks_balanced_witness :
  publish faulty x5 two = (Raise "bad", two, faulty_log) ∧
  ∃ c', heap two !! 0 = Some c' ∧ locks c' = locks (Ctrl 1 0).
Proof.
  split; [reflexivity|].
  exact (publish_locks_balanced faulty x5 two (Raise "bad") two faulty_log
           0 (Ctrl 1 0) eq_refl eq_refl).
Defined.

(** A publication to callbacks that do nothing. *)
Lemma publisher_never_destroys_witness :
  publish quiet x5 twice = (Ok (), twice, twice_log) ∧
  (∀ h, Destroyed h ∉ twice_log) ∧
  (∀ h, expired twice (Some h) = false → expired twice (Some h) = false).
Proof.
  split; [reflexivity|].
  apply (publisher_never_destroys quiet x5 twice (Ok ()) twice twice_log);
    [|reflexivity].
  intros h σ0 h' Hin. by apply elem_of_nil in Hin.
Defined.

(** A publication during which a callback enrols a new client. *)
Lemma publish_invokes_in_order_witness :
  publish recruiter x5 two = (Ok (), three, two_log) ∧
  ((λ p : handle * args, Some p.1) <$> invocations two_log)
    `sublist_of` live_entries two ∧
  (∀ p, p ∈ invocations two_log → p.2 = x5) ∧
  length (invocations two_log) ≤ length (_callbacks two).
Proof.
  split; [reflexivity|].
  exact (publish_invokes_in_order recruiter x5 two (Ok ()) three two_log
           eq_refl).
Defined.

(** A publisher whose entries are an expired handle and an empty
    observation. *)
Lemma publish_without_live_subscribers_witness :
  publish quiet x5 (World [Ctrl 0 0] [Some 0; None]) =
    (Ok (), World [Ctrl 0 0] [], []).
Proof.
  apply (publish_without_live_subscribers quiet x5
           (World [Ctrl 0 0] [Some 0; None])).
  intros w Hin.
  repeat (apply elem_of_cons in Hin as [->|Hin]; [reflexivity|]).
  by apply elem_of_nil in Hin.
Defined.

(** * An invariant of the list of observations *)

Section Registered.

Context {T exn : Type}.
Context (code : handle → T → world → list (action exn)).
Implicit Types (σ : world) (h : handle) (w : weak_ptr) (c : ctrl).
Implicit Types (evs : list (event T)) (acts : list (action exn)).

Lemma registered_set_ctrl h c σ : registered σ → registered (set_ctrl h c σ).
Proof.
  intros Hreg w Hin. destruct (Hreg w Hin) as (h' & -> & Ha).
  exists h'. split; [done|]. by apply allocated_set_ctrl.
Qed.

Lemma registered_run_action (a : action exn) σ r σ' evs :
  run_action (T:=T) a σ = (r, σ', evs) → registered σ → registered σ'.
Proof.
  intros Hrun Hreg. destruct a as [h0|h0| |w0|e]; simpl in Hrun.
  - unfold release in Hrun. destruct (heap σ !! h0) as [c0|];
      [destruct (0 <? owners c0)|]; injection Hrun as <- <- <-;
      try done. by apply registered_set_ctrl.
  - unfold retain in Hrun. destruct (heap σ !! h0) as [c0|];
      [destruct (0 <? strong c0)|]; injection Hrun as <- <- <-;
      try done. by apply registered_set_ctrl.
  - injection Hrun as <- <- <-. intros w Hin.
    destruct (Hreg w Hin) as (h & -> & Ha). exists h. split; [done|].
    unfold allocated in *. simpl. rewrite length_app. lia.
  - unfold subscribe in Hrun. destruct (expired σ w0) eqn:He; simpl in Hrun;
      injection Hrun as <- <- <-; [done|].
    intros w [Hin|Hin]%elem_of_app.
    + by apply Hreg.
    + apply list_elem_of_singleton in Hin as ->.
      destruct (live_is_Some σ w0 He) as [h ->]. exists h. split; [done|].
      by apply (live_allocated σ).
  - by injection Hrun as <- <- <-.
Qed.

Lemma registered_run_actions acts σ r σ' evs :
  run_actions (T:=T) acts σ = (r, σ', evs) → registered σ → registered σ'.
Proof.
  revert σ evs. induction acts as [|a acts IH]; intros σ evs; simpl.
  - by intros [= <- <- <-].
  - intros [(u & σ1 & evs1 & evs2 & H1 & H2 & ->)|(e & H1 & ->)]%bind_inv Hreg.
    + eapply IH; [done|]. by eapply registered_run_action.
    + by eapply registered_run_action.
Qed.

Lemma registered_dispatch_body x w σ r σ' evs :
  dispatch_body code x w σ = (r, σ', evs) → registered σ → registered σ'.
Proof.
  intros [(_ & _ & -> & _)|(h & c & σ1 & evs1 & evs2 & -> & _ & _ & H)]%
    dispatch_body_inv Hreg; [done|].
  simpl in H. destruct H as (Hact & Hun & _).
  apply registered_run_actions in Hact; [|by apply registered_set_ctrl].
  unfold unlock in Hun. destruct (heap σ1 !! h);
    injection Hun as <- _; [by apply registered_set_ctrl|done].
Qed.

Lemma registered_dispatch x cbs σ r σ' evs :
  dispatch code x cbs σ = (r, σ', evs) → registered σ → registered σ'.
Proof.
  revert σ evs. induction cbs as [|w cbs IH]; intros σ evs; simpl.
  - by intros [= <- <- <-].
  - intros [(u & σ1 & evs1 & evs2 & H1 & H2 & ->)|(e & H1 & ->)]%bind_inv Hreg.
    + eapply IH; [done|]. by eapply registered_dispatch_body.
    + by eapply registered_dispatch_body.
Qed.

Lemma registered_publish x σ r σ' evs :
  publish code x σ = (r, σ', evs) → registered σ → registered σ'.
Proof.
  rewrite publish_eq. intros Hrun Hreg.
  eapply registered_dispatch; [done|].
  intros w [_ Hin]%list_elem_of_filter. by apply Hreg.
Qed.

(** X8. The guard of [subscribe] keeps an invariant: once every entry of
    [_callbacks] observes a handle that has been made (as on a publisher
    without entries), this stays so through everything the listeners do
    and through every publication, whether it returns or raises. *)
Theorem registered_invariant ops σ σ' evs :
  registered σ → session code ops σ = (σ', evs) → registered σ'.
Proof.
  revert σ evs. induction ops as [|o ops IH]; intros σ evs Hreg; simpl.
  - by intros [= <- <-].
  - destruct (run_op code o σ) as [σ1 evs1] eqn:Hop.
    destruct (session code ops σ1) as [σ2 evs2] eqn:Hses.
    intros [= <- <-]. eapply IH; [|done].
    destruct o as [a|x]; simpl in Hop.
    + destruct (run_action a σ) as [[r σa] evsa] eqn:Hact.
      injection Hop as <- <-. by eapply registered_run_action.
    + destruct (publish code x σ) as [[r σa] evsa] eqn:Hpub.
      injection Hop as <- <-. by eapply registered_publish.
Qed.

End Registered.

(** Listeners come, subscribe also a dead and an empty observation, and
    go, around two publications of the demonstration. *)
Lemma registered_invariant_witness :
  registered one ∧
  registered
    (session recruiter
       [Act (Subscribe (Some 0)); Act (Subscribe None);
        Act (Subscribe (Some 9)); Publish x5; Act (Release 0);
        Act (Subscribe (Some 0)); Publish y6] one).1.
Proof.
  assert (registered one) as Hone.
  { intros w Hin. by apply elem_of_nil in Hin. }
  split; [exact Hone|].
  eapply (registered_invariant recruiter _ one); [exact Hone|].
  apply surjective_pairing.
Defined.
